(** * Python-Clothes-Assistent: a model of [main.py]

    The command-line outfit recommender of [main.py] is embedded here as
    Rocq definitions: the [Item] class, the [ItemManager] class
    ([load_items], [temperature_check], [choose_item], [add_item]) and the
    interactive loop at the bottom of the module.

    Python values and effects are modelled as follows.
    - [int] is [Z]; [str] is [string].
    - The built-ins [str.lower] and [int(str)] are parameters of the
      development (the variables [lower] and [py_int] of section
      [Program]): every theorem about the loop holds for whatever these
      two functions are. Only the examples are run at an instance,
      [lower_latin1] and [int_latin1], which follows CPython on strings
      whose characters are code points below 256.
    - [None] in a place where a string is expected is [option string].
    - The process state ([item_manager.items], the file [items.csv],
      standard input and output, the random number generator) is the
      record [World]; effectful code is written in the monad [Py], which
      threads the world and propagates raised exceptions.
    - The [csv] module is modelled on text, after CPython's reader
      automaton and writer for the default ([excel]) dialect. *)

From Stdlib Require Import ZArith Ascii String.
From stdpp Require Import base decidable option list strings gmap.

Local Open Scope Z_scope.

(** ** Exceptions and the effect monad *)

Inductive exn :=
  | ValueError          (* int() on a string that is not an integer literal *)
  | EOFError            (* input() at the end of standard input *)
  | KeyError            (* row['...'] on a missing column *)
  | FileNotFoundError   (* open(filename, 'r') on a missing file *)
  | PermissionError     (* open(filename, 'a') on a read-only file *)
  | CsvError.           (* _csv.Error *)

Inductive res (A : Type) :=
  | Ok (a : A)
  | Raise (e : exn).
Arguments Ok {A} a.
Arguments Raise {A} e.

(** ** class Item *)

Record Item := mkItem {
  category : option string;
  name : option string;
  color : option string;
  temperature : option string;
  style : option string;
  weather : option string
}.

(** [Item(category, name, color, temperature, style, weather)] *)
Definition Item__init__ (category name color temperature style weather : option string)
  : Item :=
  mkItem category name color temperature style weather.

(** [str(v)] for a value that is a string or [None]. *)
Definition py_str (v : option string) : string :=
  match v with
  | Some s => s
  | None => "None"
  end.

(** [Item.__str__]: [f"{self.name}/{self.color}"] *)
Definition Item__str__ (self : Item) : string :=
  py_str (name self) +:+ "/" +:+ py_str (color self).

Global Instance Item_eq_dec : EqDecision Item.
Proof. solve_decision. Defined.

(** ** The process state *)

Record World := mkWorld {
  items : list Item;               (* item_manager.items *)
  disk : option string;            (* text of items.csv; None: no such file *)
  disk_writable : bool;            (* may items.csv be opened for appending *)
  stdin : list string;             (* the lines still to be read by input() *)
  stdout : list string;            (* what has been written, oldest first *)
  rand : nat → nat;                (* decides the n-th call of random.choice *)
  draws : nat;                     (* number of calls of random.choice so far *)
  calls : list (string * Z * string)
    (* ghost: the arguments of every choose_item call so far, oldest first;
       nothing reads this field *)
}.

Definition Py (A : Type) : Type := World → res A * World.

Definition ret {A} (a : A) : Py A := λ w, (Ok a, w).
Definition raise {A} (e : exn) : Py A := λ w, (Raise e, w).
Definition bind {A B} (m : Py A) (k : A → Py B) : Py B :=
  λ w, match m w with
       | (Ok a, w') => k a w'
       | (Raise e, w') => (Raise e, w')
       end.

Declare Scope py_scope.
Delimit Scope py_scope with py.
Notation "x <- m ;; k" := (bind m (λ x, k))
  (at level 100, m at next level, right associativity) : py_scope.
Notation "m ;; k" := (bind m (λ _, k))
  (at level 100, right associativity) : py_scope.
Local Open Scope py_scope.

Definition get_world : Py World := λ w, (Ok w, w).
Definition modify_world (f : World → World) : Py unit := λ w, (Ok tt, f w).

Definition set_items (l : list Item) (w : World) : World :=
  mkWorld l (disk w) (disk_writable w) (stdin w) (stdout w) (rand w) (draws w) (calls w).
Definition set_disk (d : option string) (w : World) : World :=
  mkWorld (items w) d (disk_writable w) (stdin w) (stdout w) (rand w) (draws w) (calls w).
Definition set_stdin (l : list string) (w : World) : World :=
  mkWorld (items w) (disk w) (disk_writable w) l (stdout w) (rand w) (draws w) (calls w).
Definition set_stdout (l : list string) (w : World) : World :=
  mkWorld (items w) (disk w) (disk_writable w) (stdin w) l (rand w) (draws w) (calls w).
Definition set_draws (n : nat) (w : World) : World :=
  mkWorld (items w) (disk w) (disk_writable w) (stdin w) (stdout w) (rand w) n (calls w).
Definition set_calls (l : list (string * Z * string)) (w : World) : World :=
  mkWorld (items w) (disk w) (disk_writable w) (stdin w) (stdout w) (rand w) (draws w) l.

(** ** Built-ins *)

Definition LF : ascii := "010"%char.      (* '\n' *)
Definition CR : ascii := "013"%char.      (* '\r' *)
Definition COMMA : ascii := ","%char.
Definition DQUOTE : ascii := "034"%char.

(** [print(s)] *)
Definition print (s : string) : Py unit :=
  modify_world (λ w, set_stdout (stdout w ++ [s +:+ String LF ""]) w).

(** [input(prompt)]: writes the prompt, then reads one line without its
    newline; raises [EOFError] when no line is left. *)
Definition input (prompt : string) : Py string :=
  modify_world (λ w, set_stdout (stdout w ++ [prompt]) w) ;;
  w <- get_world ;;
  match stdin w with
  | [] => raise EOFError
  | line :: rest => modify_world (set_stdin rest) ;; ret line
  end.

(** [random.choice(seq)] on a non-empty list returns the element at an
    index below [len(seq)] that the random number generator determines.
    The generator is abstracted: [rand w n] stands for what it contributes
    to the [n]-th call of [random.choice], and [draws] counts these calls;
    taking [rand w n] modulo the length makes every value an index. How
    CPython derives the index from random bits is not modelled. *)
Definition random_choice {A} (seq : list A) (default : A) : Py A :=
  w <- get_world ;;
  modify_world (set_draws (S (draws w))) ;;
  ret (nth (rand w (draws w) mod length seq)%nat seq default).

(** ** class ItemManager *)

Definition CATEGORY_JACKET : string := "jacket".
Definition CATEGORY_SHIRT : string := "shirt".
Definition CATEGORY_PANTS : string := "pants".
Definition CATEGORY_SHOES : string := "shoes".

Definition TEMPERATURE_HOT : string := "hot".
Definition TEMPERATURE_MEDIUM : string := "medium".
Definition TEMPERATURE_COLD : string := "cold".

Definition STYLE_CASUAL : string := "casual".
Definition STYLE_FORMAL : string := "formal".

(** [ItemManager.temperature_check] (static method) *)
Definition temperature_check (temperature : Z) : string :=
  if bool_decide (temperature >= 21) then TEMPERATURE_HOT
  else if bool_decide (temperature >= 15) then TEMPERATURE_MEDIUM
  else TEMPERATURE_COLD.

(** The condition of the [if] in the loop of [choose_item]. *)
Definition matches (temperature_category style' category' : string) (item : Item) : bool :=
  bool_decide (temperature item = Some temperature_category)
  && bool_decide (style item = Some style')
  && bool_decide (category item = Some category').

(** The [for] loop of [choose_item] that collects [valid_items]. *)
Fixpoint collect_valid (temperature_category style' category' : string)
    (l : list Item) (valid_items : list Item) : list Item :=
  match l with
  | [] => valid_items
  | item :: rest =>
      collect_valid temperature_category style' category' rest
        (if matches temperature_category style' category' item
         then valid_items ++ [item] else valid_items)
  end.

(** [ItemManager.choose_item] *)
Definition choose_item (category' : string) (temperature' : Z) (style' : string)
  : Py (option Item) :=
  modify_world (λ w, set_calls (calls w ++ [(category', temperature', style')]) w) ;;
  let temperature_category := temperature_check temperature' in
  w <- get_world ;;
  let valid_items :=
    collect_valid temperature_category style' category' (items w) [] in
  match valid_items with
  | [] => ret None
  | first :: _ =>
      chosen_item <- random_choice valid_items first ;;
      ret (Some chosen_item)
  end.

(** ** The csv module, default dialect

    [delimiter=','], the double quote as [quotechar], [doublequote=True], no escape
    character, [skipinitialspace=False], [lineterminator='\r\n'],
    [quoting=QUOTE_MINIMAL], [strict=False]. *)

(** Iterating over a text file opened with [newline='']: a line ends at
    LF, CR or CR LF and keeps its ending. *)
Fixpoint splitlines (s : string) : list string :=
  match s with
  | "" => []
  | String c rest =>
      if bool_decide (c = LF) then String c "" :: splitlines rest
      else if bool_decide (c = CR) then
        match rest with
        | String c' rest' =>
            if bool_decide (c' = LF)
            then String c (String c' "") :: splitlines rest'
            else String c "" :: splitlines rest
        | "" => [String c ""]
        end
      else
        match splitlines rest with
        | [] => [String c ""]
        | line :: lines => String c line :: lines
        end
  end.

(** The states of the reader that the default dialect can reach (the three
    states for the escape character are left out: there is none). *)
Inductive ParserState :=
  | START_RECORD
  | START_FIELD
  | IN_FIELD
  | IN_QUOTED_FIELD
  | QUOTE_IN_QUOTED_FIELD
  | EAT_CRNL.

Global Instance ParserState_eq_dec : EqDecision ParserState.
Proof. solve_decision. Defined.

Record Reader := mkReader {
  state : ParserState;
  field : string;            (* the characters of the current field *)
  fields : list string       (* the fields of the current record *)
}.

(** [csv.field_size_limit()] *)
Definition field_limit : Z := 131072.

Definition parse_reset : Reader := mkReader START_RECORD "" [].

Definition set_state (s : ParserState) (self : Reader) : Reader :=
  mkReader s (field self) (fields self).

Definition parse_save_field (self : Reader) : Reader :=
  mkReader (state self) "" (fields self ++ [field self]).

(** [None] stands for [_csv.Error]. *)
Definition parse_add_char (self : Reader) (c : ascii) : option Reader :=
  if bool_decide (Z.of_nat (String.length (field self)) >= field_limit) then None
  else Some (mkReader (state self) (field self +:+ String c "") (fields self)).

Definition is_newline (c : ascii) : bool :=
  bool_decide (c = LF) || bool_decide (c = CR).

(** The character fed to the automaton: [Some c], or [None] for the
    end-of-line marker [EOL]. *)
Definition case_START_FIELD (self : Reader) (c : option ascii) : option Reader :=
  match c with
  | None => Some (set_state START_RECORD (parse_save_field self))
  | Some ch =>
      if is_newline ch then Some (set_state EAT_CRNL (parse_save_field self))
      else if bool_decide (ch = DQUOTE) then Some (set_state IN_QUOTED_FIELD self)
      else if bool_decide (ch = COMMA) then Some (parse_save_field self)
      else set_state IN_FIELD <$> parse_add_char self ch
  end.

Definition parse_process_char (self : Reader) (c : option ascii) : option Reader :=
  match state self with
  | START_RECORD =>
      match c with
      | None => Some self
      | Some ch =>
          if is_newline ch then Some (set_state EAT_CRNL self)
          else case_START_FIELD (set_state START_FIELD self) c
      end
  | START_FIELD => case_START_FIELD self c
  | IN_FIELD =>
      match c with
      | None => Some (set_state START_RECORD (parse_save_field self))
      | Some ch =>
          if is_newline ch then Some (set_state EAT_CRNL (parse_save_field self))
          else if bool_decide (ch = COMMA)
          then Some (set_state START_FIELD (parse_save_field self))
          else parse_add_char self ch
      end
  | IN_QUOTED_FIELD =>
      match c with
      | None => Some self
      | Some ch =>
          if bool_decide (ch = DQUOTE) then Some (set_state QUOTE_IN_QUOTED_FIELD self)
          else parse_add_char self ch
      end
  | QUOTE_IN_QUOTED_FIELD =>
      match c with
      | None => Some (set_state START_RECORD (parse_save_field self))
      | Some ch =>
          if bool_decide (ch = DQUOTE)
          then set_state IN_QUOTED_FIELD <$> parse_add_char self ch
          else if bool_decide (ch = COMMA)
          then Some (set_state START_FIELD (parse_save_field self))
          else if is_newline ch then Some (set_state EAT_CRNL (parse_save_field self))
          else set_state IN_FIELD <$> parse_add_char self ch
      end
  | EAT_CRNL =>
      match c with
      | None => Some (set_state START_RECORD self)
      | Some ch => if is_newline ch then Some self else None
      end
  end.

(** The characters of one line, then [EOL]. *)
Fixpoint feed_line (self : Reader) (line : string) : option Reader :=
  match line with
  | "" => parse_process_char self None
  | String c rest =>
      match parse_process_char self (Some c) with
      | Some self' => feed_line self' rest
      | None => None
      end
  end.

(** [csv.reader(file)], run to the end: the records it yields and the
    error, if any, that ends the iteration. [self] is the reader at the
    start of the next line; a record is complete when a line leaves the
    automaton in [START_RECORD]. At the end of the input a record that is
    still open (inside a quoted field) is yielded as it is. *)
Fixpoint reader_from (self : Reader) (lines : list string)
  : list (list string) * option exn :=
  match lines with
  | [] =>
      if bool_decide (field self ≠ "") || bool_decide (state self = IN_QUOTED_FIELD)
      then ([fields (parse_save_field self)], None)
      else ([], None)
  | line :: rest =>
      match feed_line self line with
      | None => ([], Some CsvError)
      | Some self' =>
          if bool_decide (state self' = START_RECORD)
          then let '(rows, e) := reader_from parse_reset rest in
               (fields self' :: rows, e)
          else reader_from self' rest
      end
  end.

Definition csv_reader (text : string) : list (list string) * option exn :=
  reader_from parse_reset (splitlines text).

(** [csv.writer]: a field is quoted when it contains the delimiter, the
    quote character or a character of the line terminator; quote
    characters inside it are doubled. *)
Definition must_quote (c : ascii) : bool :=
  bool_decide (c = COMMA) || bool_decide (c = DQUOTE) || is_newline c.

Fixpoint has_special (field' : string) : bool :=
  match field' with
  | "" => false
  | String c rest => must_quote c || has_special rest
  end.

Fixpoint double_quotes (field' : string) : string :=
  match field' with
  | "" => ""
  | String c rest =>
      if bool_decide (c = DQUOTE) then String c (String c (double_quotes rest))
      else String c (double_quotes rest)
  end.

Definition join_append (field' : string) : string :=
  if has_special field'
  then String DQUOTE (double_quotes field' +:+ String DQUOTE "")
  else field'.

Fixpoint join_fields (row : list string) : string :=
  match row with
  | [] => ""
  | [f] => join_append f
  | f :: rest => join_append f +:+ String COMMA (join_fields rest)
  end.

(** [writer.writerow(row)]: the text written. A record that would be the
    empty text (one empty field) is written as a pair of quotes. *)
Definition writerow (row : list string) : string :=
  let rec := join_fields row in
  let rec := if bool_decide (row ≠ []) && bool_decide (rec = "")
             then String DQUOTE (String DQUOTE "") else rec in
  rec +:+ String CR (String LF "").

(** [csv.DictReader.__next__], the dictionary built for one record:
    [dict(zip(fieldnames, row))], then the field names that have no value
    are set to [restval=None]. Later assignments to a key replace earlier
    ones. (The entry under [restkey=None] for surplus values is left out:
    no lookup by a string can reach it.) *)
Definition DictReader_row (fieldnames row : list string) : gmap string (option string) :=
  let d := foldl (λ d kv, <[kv.1 := Some kv.2]> d) ∅ (zip fieldnames row) in
  foldl (λ d key, <[key := None]> d) d (drop (length row) fieldnames).

(** [d[key]] *)
Definition getitem (d : gmap string (option string)) (key : string) : Py (option string) :=
  match d !! key with
  | Some v => ret v
  | None => raise KeyError
  end.

(** ** ItemManager, continued *)

(** [ItemManager.__init__] *)
Definition ItemManager__init__ : Py unit :=
  modify_world (set_items []).

(** The body of the [for row in reader] loop of [load_items], over the
    records that follow the header; [DictReader] skips empty records. *)
Fixpoint load_rows (fieldnames : list string) (rows : list (list string)) : Py unit :=
  match rows with
  | [] => ret tt
  | row :: rest =>
      match row with
      | [] => load_rows fieldnames rest
      | _ :: _ =>
          let d := DictReader_row fieldnames row in
          category' <- getitem d "category" ;;
          name' <- getitem d "name" ;;
          color' <- getitem d "color" ;;
          temperature' <- getitem d "temperature" ;;
          style' <- getitem d "style" ;;
          weather' <- getitem d "weather" ;;
          let item := Item__init__ category' name' color' temperature' style' weather' in
          modify_world (λ w, set_items (items w ++ [item]) w) ;;
          load_rows fieldnames rest
      end
  end.

Definition raise_if (e : option exn) : Py unit :=
  match e with
  | Some e => raise e
  | None => ret tt
  end.

(** [ItemManager.load_items]: the first record read is the header. *)
Definition load_items : Py unit :=
  w <- get_world ;;
  match disk w with
  | None => raise FileNotFoundError
  | Some text =>
      let '(rows, e) := csv_reader text in
      match rows with
      | [] => raise_if e
      | fieldnames :: rows' => load_rows fieldnames rows' ;; raise_if e
      end
  end.

(** [ItemManager.add_item] *)
Definition add_item : Py unit :=
  category' <- input "Enter the category of the item (jacket/shirt/pants/shoes): " ;;
  name' <- input "Enter the name of the item: " ;;
  color' <- input "Enter the color of the item: " ;;
  temperature' <- input "Enter the temperature category of the item (cold/medium/hot): " ;;
  weather' <- input "Is this item for rainy or sunny weather (rainy/sunny)? " ;;
  style' <- input "Enter the style category of the item (casual/formal): " ;;
  let item := Item__init__ (Some category') (Some name') (Some color')
                (Some temperature') (Some style') (Some weather') in
  modify_world (λ w, set_items (items w ++ [item]) w) ;;
  w <- get_world ;;
  (if disk_writable w
   then modify_world (set_disk (Some (default "" (disk w) +:+
          writerow [category'; name'; color'; temperature'; style'; weather'])))
   else raise PermissionError) ;;
  print "Item added successfully.".

(** ** An instance of [str.lower] and [int(str)]

    The program is modelled for arbitrary built-ins (section [Program]
    below). To run examples, here are the two built-ins on strings whose
    characters are the code points below 256, after CPython: a character
    of [string] stands for the code point of the same number. *)

(** [str.lower] on one code point below 256: the capital letters are
    A to Z, and the Latin-1 capitals 192 to 222 without the
    multiplication sign 215; each is 32 below its small letter. *)
Definition lower_char (c : ascii) : ascii :=
  let n := nat_of_ascii c in
  if (bool_decide (65 ≤ n)%nat && bool_decide (n ≤ 90)%nat)
     || (bool_decide (192 ≤ n)%nat && bool_decide (n ≤ 222)%nat
         && negb (bool_decide (n = 215)%nat))
  then ascii_of_nat (n + 32) else c.

Fixpoint lower_latin1 (s : string) : string :=
  match s with
  | "" => ""
  | String c rest => String (lower_char c) (lower_latin1 rest)
  end.

(** White space for [int]: tab, LF, VT, FF, CR and the space, and
    above 127 the next-line character 133 and the no-break space 160.
    (The separators 28 to 31 are not skipped by [int].) *)
Definition is_space (c : ascii) : bool :=
  let n := nat_of_ascii c in
  (bool_decide (9 ≤ n)%nat && bool_decide (n ≤ 13)%nat)
  || bool_decide (n = 32)%nat
  || bool_decide (n = 133)%nat
  || bool_decide (n = 160)%nat.

Definition digit_value (c : ascii) : option Z :=
  let n := nat_of_ascii c in
  if bool_decide (48 ≤ n)%nat && bool_decide (n ≤ 57)%nat
  then Some (Z.of_nat n - 48) else None.

Fixpoint lstrip (s : string) : string :=
  match s with
  | "" => ""
  | String c rest => if is_space c then lstrip rest else s
  end.

Fixpoint all_space (s : string) : bool :=
  match s with
  | "" => true
  | String c rest => is_space c && all_space rest
  end.

(** The digits after the first one: digits, single underscores between
    digits, then only white space. Returns the value and the number of
    digits. *)
Fixpoint int_digits (s : string) (acc count : Z) : option (Z * Z) :=
  match s with
  | "" => Some (acc, count)
  | String c rest =>
      match digit_value c with
      | Some d => int_digits rest (10 * acc + d) (count + 1)
      | None =>
          if bool_decide (c = "_"%char) then
            match rest with
            | String c' rest' =>
                match digit_value c' with
                | Some d => int_digits rest' (10 * acc + d) (count + 1)
                | None => None
                end
            | "" => None
            end
          else if all_space s then Some (acc, count) else None
      end
  end.

(** [sys.get_int_max_str_digits()] *)
Definition max_str_digits : Z := 4300.

Definition int_unsigned (s : string) : option Z :=
  match s with
  | "" => None
  | String c rest =>
      match digit_value c with
      | Some d =>
          match int_digits rest d 1 with
          | Some (v, count) => if bool_decide (count > max_str_digits) then None else Some v
          | None => None
          end
      | None => None
      end
  end.

(** [int(s)] on such a string: [None] stands for [ValueError]. *)
Definition int_latin1 (s : string) : option Z :=
  match lstrip s with
  | String "+" rest => int_unsigned rest
  | String "-" rest => Z.opp <$> int_unsigned rest
  | s' => int_unsigned s'
  end.

(** ** The built-ins as parameters *)

Section Program.

Set Default Proof Using "Type".

(** [str.lower] *)
Variable lower : string → string.

(** [int(s)] for a string [s]: the integer, or [None] when [int] raises
    [ValueError]. *)
Variable py_int : string → option Z.

Definition int (s : string) : Py Z :=
  match py_int s with
  | Some z => ret z
  | None => raise ValueError
  end.

(** ** The interactive loop *)

(** [print(f"Jacket: {jacket}" if jacket else "Jacket: Sorry, no suitable jacket")]
    and its three siblings. *)
Definition report_line (label : string) (what : string) (chosen : option Item) : string :=
  match chosen with
  | Some item => label +:+ ": " +:+ Item__str__ item
  | None => label +:+ ": Sorry, no suitable " +:+ what
  end.

Definition report (label : string) (what : string) (chosen : option Item) : Py unit :=
  print (report_line label what chosen).

(** The branch [if action == "find"]. *)
Definition find_action : Py unit :=
  t <- input "What is the temperature today: " ;;
  today_temperature <- int t ;;
  s <- input "What is the style today (casual/formal): " ;;
  let today_style := lower s in
  v <- input "Is it rainy or sunny outside? (rainy/sunny): " ;;
  let weather' := lower v in
  jacket <- choose_item CATEGORY_JACKET today_temperature today_style ;;
  shirt <- choose_item CATEGORY_SHIRT today_temperature today_style ;;
  pants <- choose_item CATEGORY_PANTS today_temperature today_style ;;
  shoes <- choose_item CATEGORY_SHOES today_temperature today_style ;;
  if bool_decide (weather' = "rainy")
     || bool_decide (temperature_check today_temperature = TEMPERATURE_COLD)
  then
    print "Today's Outfit:" ;;
    report "Jacket" "jacket" jacket ;;
    report "Shirt" "shirt" shirt ;;
    report "Pants" "pants" pants ;;
    report "Shoes" "shoes" shoes
  else
    print "Today's Outfit:" ;;
    report "Shirt" "shirt" shirt ;;
    report "Pants" "pants" pants ;;
    report "Shoes" "shoes" shoes.

Inductive flow := Continue | Break.

(** One iteration of [while True]. *)
Definition loop_body : Py flow :=
  a <- input "Choose an action (find/add/quit): " ;;
  let action := lower a in
  if bool_decide (action = "find") then find_action ;; ret Continue
  else if bool_decide (action = "add") then add_item ;; ret Continue
  else if bool_decide (action = "quit") then ret Break
  else print "Invalid action. Please choose again." ;; ret Continue.

(** [while True: ...], for at most [fuel] iterations; [None] when the fuel
    runs out before the loop ends. *)
Fixpoint main_loop (fuel : nat) (w : World) : option (res unit * World) :=
  match fuel with
  | O => None
  | S fuel' =>
      match loop_body w with
      | (Ok Continue, w') => main_loop fuel' w'
      | (Ok Break, w') => Some (Ok tt, w')
      | (Raise e, w') => Some (Raise e, w')
      end
  end.

(** The module body: create the manager, load the items, run the loop. *)
Definition main (fuel : nat) (w : World) : option (res unit * World) :=
  match (ItemManager__init__ ;; load_items) w with
  | (Ok _, w') => main_loop fuel w'
  | (Raise e, w') => Some (Raise e, w')
  end.

(** A process that has just started on a given file and input. *)
Definition fresh_process (text : option string) (writable : bool)
    (inputs : list string) (rnd : nat → nat) : World :=
  mkWorld [] text writable inputs [] rnd 0 [].

(** ** Vocabulary of the statements *)

(** What the [if] of [choose_item] tests, as a proposition. *)
Definition Matches (K : string) (T : Z) (S : string) (item : Item) : Prop :=
  category item = Some K
  ∧ temperature item = Some (temperature_check T)
  ∧ style item = Some S.


(** The catalog of the two-item scenario. *)
Definition parka : Item :=
  Item__init__ (Some "jacket") (Some "Parka") (Some "Blue")
    (Some "cold") (Some "casual") (Some "rainy").
Definition tee : Item :=
  Item__init__ (Some "shirt") (Some "Tee") (Some "White")
    (Some "hot") (Some "casual") (Some "sunny").

Global Instance Matches_dec K T S item : Decision (Matches K T S item).
Proof. unfold Matches. apply _. Defined.

(** The outcome of [choose_item] as a function of the catalog and of the
    random source: the item picked, and the number of draws it takes. *)
Definition pick (K : string) (T : Z) (S : string) (its : list Item)
    (rnd : nat → nat) (dr : nat) : option Item :=
  match collect_valid (temperature_check T) S K its [] with
  | [] => None
  | first :: rest =>
      Some (nth (rnd dr mod length (first :: rest))%nat (first :: rest) first)
  end.

Definition drawn (K : string) (T : Z) (S : string) (its : list Item) : nat :=
  match collect_valid (temperature_check T) S K its [] with
  | [] => 0%nat
  | _ :: _ => 1%nat
  end.

(** The condition under which the find branch prints the jacket line. *)
Definition jacket_gate (weather' : string) (T : Z) : bool :=
  bool_decide (weather' = "rainy")
  || bool_decide (temperature_check T = TEMPERATURE_COLD).

(** What is written for one line of [print]. *)
Definition line (s : string) : string := s +:+ String LF "".

(** The statement that the find branch calls [choose_item] for the jacket
    only when it is rainy or cold: every jacket call logged by
    [find_action] comes with that condition. *)
Definition jacket_called_only_when_gated (w : World) : Prop :=
  ∀ t u v rest T,
    stdin w = t :: u :: v :: rest →
    py_int t = Some T →
    (CATEGORY_JACKET, T, lower u) ∈ drop (length (calls w)) (calls (find_action w).2) →
    jacket_gate (lower v) T = true.

(** The statement that a temperature that is not an integer is survived:
    the iteration of the loop ends normally and the loop goes on. *)
Definition bad_temperature_survived (w : World) : Prop :=
  ∀ a t rest,
    stdin w = a :: t :: rest →
    lower a = "find" →
    py_int t = None →
    ∃ w', loop_body w = (Ok Continue, w').

Global Instance Reader_eq_dec : EqDecision Reader.
Proof. solve_decision. Defined.

(** The reader on the text itself: line splitting and the automaton in one
    pass over the characters. [open] tells whether the current line has a
    character already, so that the end of the text closes it with [EOL].
    Lemma [reader_from_splitlines] shows that this is [reader_from] on
    [splitlines]. *)
Definition after_eol (self : Reader)
    (k : Reader → list (list string) * option exn) : list (list string) * option exn :=
  match parse_process_char self None with
  | None => ([], Some CsvError)
  | Some self' =>
      if bool_decide (state self' = START_RECORD)
      then let '(rows, e) := k parse_reset in (fields self' :: rows, e)
      else k self'
  end.

Fixpoint read_text (self : Reader) (open : bool) (text : string)
  : list (list string) * option exn :=
  match text with
  | "" =>
      if open then after_eol self (λ s, reader_from s []) else reader_from self []
  | String c rest =>
      match parse_process_char self (Some c) with
      | None => ([], Some CsvError)
      | Some s1 =>
          if bool_decide (c = LF) then after_eol s1 (λ s2, read_text s2 false rest)
          else if bool_decide (c = CR) then
            match rest with
            | String c' rest' =>
                if bool_decide (c' = LF) then
                  match parse_process_char s1 (Some c') with
                  | None => ([], Some CsvError)
                  | Some s2 => after_eol s2 (λ s3, read_text s3 false rest')
                  end
                else after_eol s1 (λ s2, read_text s2 false rest)
            | "" => after_eol s1 (λ s2, read_text s2 false rest)
            end
          else read_text s1 true rest
      end
  end.

(** The lines leave the reader between two records: no record is open
    and no error has occurred. *)
Fixpoint boundary_from (self : Reader) (lines : list string) : bool :=
  match lines with
  | [] => bool_decide (self = parse_reset)
  | line :: rest =>
      match feed_line self line with
      | None => false
      | Some self' =>
          if bool_decide (state self' = START_RECORD)
          then boundary_from parse_reset rest
          else boundary_from self' rest
      end
  end.

(** The text is empty or its last character is a line break. *)
Fixpoint ends_line (text : string) : bool :=
  match text with
  | "" => true
  | String c rest =>
      match rest with
      | "" => is_newline c
      | String _ _ => ends_line rest
      end
  end.

(** A file to which a record can be appended: it ends with a line break
    that also ends a record. *)
Definition well_terminated (text : string) : bool :=
  ends_line text && boundary_from parse_reset (splitlines text).

(** The header that [load_items] expects, in the order in which
    [add_item] writes the columns. *)
Definition HEADER : list string :=
  ["category"; "name"; "color"; "temperature"; "style"; "weather"].

(** The item that [load_items] builds from a record under [HEADER]:
    a column without a value is [None]. *)
Definition row_item (row : list string) : Item :=
  mkItem (row !! 0%nat) (row !! 1%nat) (row !! 2%nat)
         (row !! 3%nat) (row !! 4%nat) (row !! 5%nat).

(** A new process that loads the file: the outcome of [load_items] and
    the catalog it leaves. *)
Definition reload (file : option string) : res unit * list Item :=
  let r := (ItemManager__init__ ;; load_items)
             (fresh_process file true [] (λ _, 0%nat)) in
  (r.1, items r.2).

(** The statement that an appended record is found again by a new process:
    whatever the file holds, reloading after [add_item] gives the items of
    before followed by the new one. *)
Definition appended_record_reloaded (w : World) : Prop :=
  ∀ c n co t we s rest,
    stdin w = c :: n :: co :: t :: we :: s :: rest →
    ∃ old,
      reload (disk w) = (Ok tt, old)
      ∧ reload (disk (add_item w).2)
        = (Ok tt, old ++ [mkItem (Some c) (Some n) (Some co) (Some t) (Some s) (Some we)]).

(** The states in which a field is complete: a comma or a line break
    saves it. *)
Definition field_done (s : Reader) (f : string) (fs : list string) : Prop :=
  parse_process_char s (Some COMMA) = Some (mkReader START_FIELD "" (fs ++ [f]))
  ∧ parse_process_char s (Some CR) = Some (mkReader EAT_CRNL "" (fs ++ [f])).

(** Files of the examples: the header line, and one record. *)
Definition CRLF : string := String CR (String LF "").
Definition header_line : string :=
  "category,name,color,temperature,style,weather" +:+ CRLF.
Definition parka_line : string := "jacket,Parka,Blue,cold,casual,rainy" +:+ CRLF.

(** ** Vocabulary of the further properties *)

(** A computation keeps a relation between the state before and the state
    after, whether it returns or raises. *)
Definition keeps (R : World → World → Prop) {A} (m : Py A) : Prop :=
  ∀ w, R w (m w).2.

(** The catalog, the file and its permission are as before. *)
Definition store_same (w w' : World) : Prop :=
  items w' = items w ∧ disk w' = disk w ∧ disk_writable w' = disk_writable w.

(** The text of the file is extended at its end, never changed. *)
Definition disk_grows (d d' : option string) : Prop :=
  match d with
  | Some text => ∃ more, d' = Some (text +:+ more)
  | None => True
  end.

(** Nothing is taken back: the catalog and the output are extended at
    their end, the file is extended at its end, and no input line comes
    back. *)
Definition grows (w w' : World) : Prop :=
  items w `prefix_of` items w'
  ∧ disk_grows (disk w) (disk w')
  ∧ disk_writable w' = disk_writable w
  ∧ stdout w `prefix_of` stdout w'
  ∧ stdin w' `suffix_of` stdin w.

(** What the user types for one [add] action, in the order of the
    prompts. *)
Record Entry := mkEntry {
  entry_category : string;
  entry_name : string;
  entry_color : string;
  entry_temperature : string;
  entry_weather : string;
  entry_style : string
}.

Definition entry_lines (e : Entry) : list string :=
  ["add"; entry_category e; entry_name e; entry_color e;
   entry_temperature e; entry_weather e; entry_style e].

Definition entry_row (e : Entry) : list string :=
  [entry_category e; entry_name e; entry_color e;
   entry_temperature e; entry_style e; entry_weather e].

Definition entry_item (e : Entry) : Item :=
  mkItem (Some (entry_category e)) (Some (entry_name e)) (Some (entry_color e))
         (Some (entry_temperature e)) (Some (entry_style e)) (Some (entry_weather e)).

Definition entry_ok (e : Entry) : Prop :=
  Forall (λ f, Z.of_nat (String.length f) <= field_limit) (entry_row e).

(** The text that the [add] actions of a session append to the file. *)
Fixpoint rows_text (entries : list Entry) : string :=
  match entries with
  | [] => ""
  | e :: rest => writerow (entry_row e) +:+ rows_text rest
  end.

(** Input, output and the file are as before. *)
Definition io_same (w w' : World) : Prop :=
  stdin w' = stdin w ∧ stdout w' = stdout w
  ∧ disk w' = disk w ∧ disk_writable w' = disk_writable w.

(** * Properties *)

(** ** Running the monad *)

(** Running the monad on an explicit state, one statement at a time. *)
Lemma bind_run {A B} (m : Py A) (k : A → Py B) (w : World) :
  bind m k w =
  match m w with
  | (Ok a, w') => k a w'
  | (Raise e, w') => (Raise e, w')
  end.
Proof. reflexivity. Qed.

Lemma input_run prompt its d wr line rest out rnd dr cl :
  input prompt (mkWorld its d wr (line :: rest) out rnd dr cl)
  = (Ok line, mkWorld its d wr rest (out ++ [prompt]) rnd dr cl).
Proof. reflexivity. Qed.

Lemma input_eof prompt its d wr out rnd dr cl :
  input prompt (mkWorld its d wr [] out rnd dr cl)
  = (Raise EOFError, mkWorld its d wr [] (out ++ [prompt]) rnd dr cl).
Proof. reflexivity. Qed.

Lemma print_run s its d wr inp out rnd dr cl :
  print s (mkWorld its d wr inp out rnd dr cl)
  = (Ok tt, mkWorld its d wr inp (out ++ [s +:+ String LF ""]) rnd dr cl).
Proof. reflexivity. Qed.

Lemma modify_world_run f (w : World) : modify_world f w = (Ok tt, f w).
Proof. reflexivity. Qed.

Lemma get_world_run (w : World) : get_world w = (Ok w, w).
Proof. reflexivity. Qed.

Ltac world_norm :=
  cbv [set_items set_disk set_stdin set_stdout set_draws set_calls
       items disk disk_writable stdin stdout rand draws calls].

Ltac py_step :=
  rewrite bind_run;
  first [ rewrite input_run | rewrite print_run
        | rewrite modify_world_run | rewrite get_world_run ];
  world_norm; cbv beta iota.

(** ** The selector *)

Section Selector.

Implicit Types (w : World) (K S : string) (T : Z).

Lemma matches_spec K T S item :
  matches (temperature_check T) S K item = true ↔ Matches K T S item.
Proof.
  unfold matches, Matches.
  rewrite !andb_true_iff, !bool_decide_eq_true. clear lower py_int. tauto.
Qed.

Lemma collect_valid_elem tc S K l acc item :
  item ∈ collect_valid tc S K l acc ↔
  item ∈ acc ∨ (item ∈ l ∧ matches tc S K item = true).
Proof.
  revert acc. induction l as [|x l IH]; intros acc; simpl.
  - rewrite elem_of_nil. clear lower py_int. tauto.
  - rewrite IH, elem_of_cons. destruct (matches tc S K x) eqn:Hx.
    + rewrite elem_of_app, list_elem_of_singleton.
      split; [intros [[?| ->]|[? ?]]|intros [?|[[ ->|?] ?]]]; auto.
    + split; [intros [?|[? ?]]|intros [?|[[ ->|?] ?]]]; auto. congruence.
Qed.

Lemma collect_valid_nil tc S K l :
  collect_valid tc S K l [] = [] ↔ Forall (λ item, matches tc S K item = false) l.
Proof.
  rewrite Forall_forall. split.
  - intros Hnil item Hin. destruct (matches tc S K item) eqn:Hm; [|done].
    assert (item ∈ collect_valid tc S K l []) as Hc
      by (apply collect_valid_elem; auto).
    rewrite Hnil in Hc. by apply elem_of_nil in Hc.
  - intros Hall. destruct (collect_valid tc S K l []) as [|x v] eqn:Hc; [done|].
    assert (x ∈ collect_valid tc S K l []) as Hx by (rewrite Hc; left).
    apply collect_valid_elem in Hx as [Hx|[Hx Hm]].
    + by apply elem_of_nil in Hx.
    + rewrite (Hall x) in Hm by done. discriminate.
Qed.

(** One call of [choose_item], step by step. *)
Lemma choose_item_run w K T S :
  choose_item K T S w =
  let w1 := set_calls (calls w ++ [(K, T, S)]) w in
  match collect_valid (temperature_check T) S K (items w) [] with
  | [] => (Ok None, w1)
  | first :: rest =>
      (Ok (Some (nth (rand w (draws w) mod length (first :: rest))%nat
                   (first :: rest) first)),
       set_draws (Datatypes.S (draws w)) w1)
  end.
Proof.
  unfold choose_item, bind, modify_world, get_world; simpl.
  destruct (collect_valid _ _ _ _ _); reflexivity.
Qed.

Lemma nth_mod_elem {A} (l : list A) (d : A) (n : nat) :
  l ≠ [] → nth (n mod length l)%nat l d ∈ l.
Proof.
  intros Hl. apply list_elem_of_In, nth_In.
  apply Nat.mod_upper_bound. by destruct l.
Qed.

End Selector.

Section SelectorClaims.

Implicit Types (w : World) (K S : string) (T : Z).

(** C2. [temperature_check] maps every integer from 21 up to "hot", every
    integer from 15 to 20 to "medium" and every integer below 15 to
    "cold"; at the boundaries, 21 is hot, 20 and 15 are medium, 14 is
    cold. *)
Theorem temperature_check_bands T :
  (T >= 21 → temperature_check T = "hot")
  ∧ (15 <= T < 21 → temperature_check T = "medium")
  ∧ (T < 15 → temperature_check T = "cold")
  ∧ temperature_check 21 = "hot"
  ∧ temperature_check 20 = "medium"
  ∧ temperature_check 15 = "medium"
  ∧ temperature_check 14 = "cold".
Proof.
  unfold temperature_check.
  repeat split; try reflexivity; intros H; repeat case_bool_decide; done || lia.
Qed.

Lemma temperature_check_bands_witness :
  temperature_check 30 = "hot"
  ∧ temperature_check 17 = "medium"
  ∧ temperature_check (-3) = "cold".
Proof.
  split; [|split].
  - destruct (temperature_check_bands 30) as [H _]. apply H. lia.
  - destruct (temperature_check_bands 17) as (_ & H & _). apply H. lia.
  - destruct (temperature_check_bands (-3)) as (_ & _ & H & _). apply H. lia.
Defined.

(** C10. [temperature_check] is total: on every integer it returns one of
    "hot", "medium", "cold", the one of its band, and these three values
    are pairwise different, so exactly one of the three cases holds. *)
Theorem temperature_check_total T :
  ((temperature_check T = TEMPERATURE_HOT ∧ 21 <= T)
   ∨ (temperature_check T = TEMPERATURE_MEDIUM ∧ 15 <= T < 21)
   ∨ (temperature_check T = TEMPERATURE_COLD ∧ T < 15))
  ∧ TEMPERATURE_HOT ≠ TEMPERATURE_MEDIUM
  ∧ TEMPERATURE_HOT ≠ TEMPERATURE_COLD
  ∧ TEMPERATURE_MEDIUM ≠ TEMPERATURE_COLD.
Proof.
  split; [|done]. unfold temperature_check.
  repeat case_bool_decide; [left|right; left|right; right]; split; done || lia.
Qed.

(** The result of [choose_item], for every state. *)
Lemma choose_item_spec w K T S :
  ∃ r, (choose_item K T S w).1 = Ok r ∧
    match r with
    | Some item => item ∈ items w ∧ Matches K T S item
    | None => Forall (λ item, ¬ Matches K T S item) (items w)
    end.
Proof.
  rewrite choose_item_run; simpl.
  destruct (collect_valid _ _ _ _ _) as [|first rest] eqn:Hv; simpl.
  - exists None. split; [done|].
    apply collect_valid_nil in Hv. eapply Forall_impl; [exact Hv|].
    intros item Hm HM. apply matches_spec in HM. congruence.
  - eexists. split; [done|].
    assert (first :: rest ≠ []) as Hne by done.
    pose proof (nth_mod_elem (first :: rest) first (rand w (draws w)) Hne) as Hin.
    rewrite <- Hv in Hin at 3. apply collect_valid_elem in Hin.
    destruct Hin as [Hin|[Hin Hm]]; [by apply elem_of_nil in Hin|].
    split; [done|]. by apply matches_spec.
Qed.

(** C1. [choose_item] never raises; an item it returns is in the catalog
    and its category, temperature band and style equal the requested
    category, the band of the requested temperature and the requested
    style; it returns no item only when no item of the catalog matches, so
    a non-empty filtered set always yields one of its items. *)
Theorem choose_item_matches w K T S :
  ∃ r, (choose_item K T S w).1 = Ok r ∧
    match r with
    | Some item => item ∈ items w ∧ Matches K T S item
    | None => Forall (λ item, ¬ Matches K T S item) (items w)
    end.
Proof. apply choose_item_spec. Qed.

(** C6. When no item of the catalog matches the category, the band of the
    temperature and the style, [choose_item] returns [None] without
    raising, and without drawing a random number. *)
Theorem choose_item_none w K T S :
  Forall (λ item, ¬ Matches K T S item) (items w) →
  (choose_item K T S w).1 = Ok None
  ∧ draws (choose_item K T S w).2 = draws w.
Proof.
  intros Hall. rewrite choose_item_run; simpl.
  assert (collect_valid (temperature_check T) S K (items w) [] = []) as ->; [|done].
  apply collect_valid_nil. eapply Forall_impl; [exact Hall|].
  intros item HM. destruct (matches _ _ _ item) eqn:Hm; [|done].
  by apply matches_spec in Hm.
Qed.

End SelectorClaims.

Section SelectorScenarios.

Implicit Types (w : World) (K S : string) (T : Z).

Lemma choose_item_none_witness :
  let w := fresh_process None true [] (λ _, 0%nat) in
  (choose_item "jacket" 25 "casual" (set_items [parka; tee] w)).1 = Ok None
  ∧ draws (choose_item "jacket" 25 "casual" (set_items [parka; tee] w)).2 = 0%nat.
Proof.
  apply choose_item_none. apply (bool_decide_unpack _). vm_compute. exact I.
Defined.

(** C7. On the catalog of the Parka (jacket, cold, casual) and the Tee
    (shirt, hot, casual), [choose_item] for a casual jacket at 10 degrees
    returns the Parka whatever the random source draws, and for a casual
    jacket at 25 degrees it returns [None]. *)
Theorem choose_item_scenario w :
  (choose_item "jacket" 10 "casual" (set_items [parka; tee] w)).1 = Ok (Some parka)
  ∧ (choose_item "jacket" 25 "casual" (set_items [parka; tee] w)).1 = Ok None.
Proof.
  rewrite !choose_item_run. split; [|reflexivity].
  assert (collect_valid (temperature_check 10) "casual" "jacket"
            (items (set_items [parka; tee] w)) [] = [parka]) as -> by reflexivity.
  cbn [length fst]. by rewrite Nat.mod_1_r.
Qed.

(** C8. [choose_item] changes neither the catalog in memory nor the file
    (nor standard input or output): only the random source and the log of
    calls move. [temperature_check] is a function of its argument alone,
    so evaluating it leaves the whole state as it was. *)
Theorem choose_item_frame w K T S :
  items (choose_item K T S w).2 = items w
  ∧ disk (choose_item K T S w).2 = disk w
  ∧ disk_writable (choose_item K T S w).2 = disk_writable w
  ∧ stdin (choose_item K T S w).2 = stdin w
  ∧ stdout (choose_item K T S w).2 = stdout w
  ∧ ret (temperature_check T) w = (Ok (temperature_check T), w).
Proof.
  rewrite choose_item_run; simpl.
  by destruct (collect_valid _ _ _ _ _).
Qed.

(** One call of [add_item] when six lines are waiting on standard input. *)
Lemma add_item_run its d wr c n co t we s rest out rnd dr cl :
  add_item (mkWorld its d wr (c :: n :: co :: t :: we :: s :: rest) out rnd dr cl) =
  let item := mkItem (Some c) (Some n) (Some co) (Some t) (Some s) (Some we) in
  let out1 :=
    out ++
    ["Enter the category of the item (jacket/shirt/pants/shoes): ";
     "Enter the name of the item: ";
     "Enter the color of the item: ";
     "Enter the temperature category of the item (cold/medium/hot): ";
     "Is this item for rainy or sunny weather (rainy/sunny)? ";
     "Enter the style category of the item (casual/formal): "] in
  if wr
  then (Ok tt,
        mkWorld (its ++ [item])
          (Some (default "" d +:+ writerow [c; n; co; t; s; we])) wr rest
          (out1 ++ ["Item added successfully." +:+ String LF ""]) rnd dr cl)
  else (Raise PermissionError, mkWorld (its ++ [item]) d wr rest out1 rnd dr cl).
Proof.
  unfold add_item, Item__init__. do 8 py_step.
  cbv zeta. destruct wr.
  - py_step. rewrite print_run. by rewrite <- !(assoc_L (++) out).
  - by rewrite <- !(assoc_L (++) out).
Qed.

End SelectorScenarios.

(** ** The interactive loop *)

Implicit Types (w : World) (T : Z).

Lemma choose_item_mk K T S its d wr inp out rnd dr cl :
  choose_item K T S (mkWorld its d wr inp out rnd dr cl)
  = (Ok (pick K T S its rnd dr),
     mkWorld its d wr inp out rnd (dr + drawn K T S its) (cl ++ [(K, T, S)])).
Proof.
  rewrite choose_item_run. unfold pick, drawn. world_norm. cbv zeta.
  destruct (collect_valid _ _ _ _ _).
  - by rewrite Nat.add_0_r.
  - by rewrite Nat.add_1_r.
Qed.

Lemma int_run t T (w : World) : py_int t = Some T → int t w = (Ok T, w).
Proof. unfold int. by intros ->. Qed.

Lemma int_fail t (w : World) : py_int t = None → int t w = (Raise ValueError, w).
Proof. unfold int. by intros ->. Qed.

Ltac find_step :=
  rewrite bind_run;
  first [ rewrite input_run | rewrite print_run | rewrite choose_item_mk ];
  cbv beta iota.

(** The find branch when three lines are waiting and the first one is an
    integer literal. *)
Lemma find_action_run its d wr t u v rest out rnd dr cl T :
  py_int t = Some T →
  find_action (mkWorld its d wr (t :: u :: v :: rest) out rnd dr cl) =
  let S := lower u in
  let jacket := pick CATEGORY_JACKET T S its rnd dr in
  let dr1 := (dr + drawn CATEGORY_JACKET T S its)%nat in
  let shirt := pick CATEGORY_SHIRT T S its rnd dr1 in
  let dr2 := (dr1 + drawn CATEGORY_SHIRT T S its)%nat in
  let pants := pick CATEGORY_PANTS T S its rnd dr2 in
  let dr3 := (dr2 + drawn CATEGORY_PANTS T S its)%nat in
  let shoes := pick CATEGORY_SHOES T S its rnd dr3 in
  let dr4 := (dr3 + drawn CATEGORY_SHOES T S its)%nat in
  (Ok tt,
   mkWorld its d wr rest
     (out ++
      ["What is the temperature today: ";
       "What is the style today (casual/formal): ";
       "Is it rainy or sunny outside? (rainy/sunny): "] ++
      [line "Today's Outfit:"] ++
      (if jacket_gate (lower v) T
       then [line (report_line "Jacket" "jacket" jacket)] else []) ++
      [line (report_line "Shirt" "shirt" shirt);
       line (report_line "Pants" "pants" pants);
       line (report_line "Shoes" "shoes" shoes)])
     rnd dr4
     (cl ++ [(CATEGORY_JACKET, T, S); (CATEGORY_SHIRT, T, S);
             (CATEGORY_PANTS, T, S); (CATEGORY_SHOES, T, S)])).
Proof.
  intros HT. unfold find_action, report.
  find_step. rewrite bind_run, (int_run _ _ _ HT). cbv beta iota.
  do 6 find_step.
  fold (jacket_gate (lower v) T). cbv zeta.
  destruct (jacket_gate (lower v) T).
  - do 4 find_step. rewrite print_run.
    rewrite <- !(assoc_L (++) out), <- !(assoc_L (++) cl). reflexivity.
  - do 3 find_step. rewrite print_run.
    rewrite <- !(assoc_L (++) out), <- !(assoc_L (++) cl). reflexivity.
Qed.

(** What [pick] returns: an item of the catalog whose three fields equal
    the requested strings, or nothing when there is no such item. *)
Lemma pick_spec K T S its rnd dr :
  match pick K T S its rnd dr with
  | Some found => found ∈ its ∧ Matches K T S found
  | None => Forall (λ item, ¬ Matches K T S item) its
  end.
Proof.
  destruct (choose_item_spec (mkWorld its None true [] [] rnd dr []) K T S)
    as (r & Hr & Hm).
  rewrite choose_item_mk in Hr. cbn [fst] in Hr. injection Hr as <-.
  exact Hm.
Qed.

(** When lower-casing twice is lower-casing once, the strings that are the
    lower-casing of no string are those that differ from their own
    lower-casing. *)
Lemma not_lowered_iff s :
  (∀ u, lower (lower u) = lower u) →
  (∀ u, lower u ≠ s) ↔ lower s ≠ s.
Proof.
  intros Hid. split.
  - intros H. apply H.
  - intros Hs u Hu. apply Hs. by rewrite <- Hu.
Qed.

(** C9. [add_item] stores the six strings as they were typed, the style
    included, whether or not the file can be written. [choose_item]
    matches by equality of strings: what it returns is an item of the
    catalog whose category, temperature band and style are equal to the
    requested strings, and it returns nothing only when the catalog has no
    such item. The find branch calls [choose_item] four times, with the
    lower-cased style, and reports what these calls return. So an item
    added with a style that is not the lower-casing of any string (a style
    with a capital letter, such as "Casual") is returned by none of the
    four calls of any find query. *)
Theorem uppercase_style_never_found w c n co t we s rest :
  stdin w = c :: n :: co :: t :: we :: s :: rest →
  (∀ u, lower u ≠ s) →
  let item := mkItem (Some c) (Some n) (Some co) (Some t) (Some s) (Some we) in
  items (add_item w).2 = items w ++ [item]
  ∧ (∀ w' K T S,
       (choose_item K T S w').1 = Ok (pick K T S (items w') (rand w') (draws w'))
       ∧ match pick K T S (items w') (rand w') (draws w') with
         | Some found => found ∈ items w' ∧ Matches K T S found
         | None => Forall (λ item, ¬ Matches K T S item) (items w')
         end)
  ∧ (∀ w' t' u v rest' T,
       stdin w' = t' :: u :: v :: rest' →
       py_int t' = Some T →
       let S := lower u in
       let its := items w' in
       let jacket := pick CATEGORY_JACKET T S its (rand w') (draws w') in
       let dr1 := (draws w' + drawn CATEGORY_JACKET T S its)%nat in
       let shirt := pick CATEGORY_SHIRT T S its (rand w') dr1 in
       let dr2 := (dr1 + drawn CATEGORY_SHIRT T S its)%nat in
       let pants := pick CATEGORY_PANTS T S its (rand w') dr2 in
       let dr3 := (dr2 + drawn CATEGORY_PANTS T S its)%nat in
       let shoes := pick CATEGORY_SHOES T S its (rand w') dr3 in
       (find_action w').1 = Ok tt
       ∧ calls (find_action w').2 =
           calls w' ++ [(CATEGORY_JACKET, T, S); (CATEGORY_SHIRT, T, S);
                        (CATEGORY_PANTS, T, S); (CATEGORY_SHOES, T, S)]
       ∧ stdout (find_action w').2 =
           stdout w' ++
           ["What is the temperature today: ";
            "What is the style today (casual/formal): ";
            "Is it rainy or sunny outside? (rainy/sunny): "] ++
           [line "Today's Outfit:"] ++
           (if jacket_gate (lower v) T
            then [line (report_line "Jacket" "jacket" jacket)] else []) ++
           [line (report_line "Shirt" "shirt" shirt);
            line (report_line "Pants" "pants" pants);
            line (report_line "Shoes" "shoes" shoes)]
       ∧ jacket ≠ Some item ∧ shirt ≠ Some item
       ∧ pants ≠ Some item ∧ shoes ≠ Some item).
Proof.
  intros Hin Hs item. split; [|split].
  - destruct w as [its d wr inp out rnd dr cl]. cbn [stdin] in Hin. subst inp.
    rewrite add_item_run. by destruct wr.
  - intros [its d wr inp out rnd dr cl] K T S.
    rewrite choose_item_mk. cbn [fst items rand draws]. split; [done|].
    apply pick_spec.
  - intros [its d wr inp out rnd dr cl] t' u v rest' T Hin' HT.
    cbn [stdin] in Hin'. subst inp.
    rewrite (find_action_run _ _ _ _ _ _ _ _ _ _ _ _ HT).
    cbv zeta. cbn [fst snd calls stdout items rand draws].
    assert (∀ K dr', pick K T (lower u) its rnd dr' ≠ Some item) as Hpick.
    { intros K dr' Hp. pose proof (pick_spec K T (lower u) its rnd dr') as Hspec.
      rewrite Hp in Hspec. destruct Hspec as (_ & _ & _ & Hst).
      cbn [style item] in Hst. injection Hst as Hst. by apply (Hs u). }
    repeat split; try done; apply Hpick.
Qed.

(** C4. In the find branch [choose_item] is called for the jacket, the
    shirt, the pants and the shoes, in this order and whatever the weather
    and the temperature are; the jacket line is printed exactly when the
    weather is rainy or the band of the temperature is cold. At 25 degrees
    the jacket is requested in sunny and in rainy weather, and reported
    only in rainy weather. *)
Theorem find_action_jacket w t u v rest T :
  stdin w = t :: u :: v :: rest →
  py_int t = Some T →
  (find_action w).1 = Ok tt
  ∧ calls (find_action w).2 =
      calls w ++ [(CATEGORY_JACKET, T, lower u); (CATEGORY_SHIRT, T, lower u);
                  (CATEGORY_PANTS, T, lower u); (CATEGORY_SHOES, T, lower u)]
  ∧ (∃ jacket shirt pants shoes : option Item,
       stdout (find_action w).2 =
         stdout w ++
         ["What is the temperature today: ";
          "What is the style today (casual/formal): ";
          "Is it rainy or sunny outside? (rainy/sunny): "] ++
         [line "Today's Outfit:"] ++
         (if bool_decide (lower v = "rainy")
             || bool_decide (temperature_check T = TEMPERATURE_COLD)
          then [line (report_line "Jacket" "jacket" jacket)] else []) ++
         [line (report_line "Shirt" "shirt" shirt);
          line (report_line "Pants" "pants" pants);
          line (report_line "Shoes" "shoes" shoes)])
  ∧ jacket_gate "sunny" 25 = false
  ∧ jacket_gate "rainy" 25 = true.
Proof.
  intros Hin HT. destruct w as [its d wr inp out rnd dr cl].
  cbn [stdin] in Hin. subst inp.
  rewrite (find_action_run _ _ _ _ _ _ _ _ _ _ _ _ HT). cbv zeta.
  cbn [fst snd calls stdout].
  split; [done|]. split; [done|]. split; [|done].
  by eexists _, _, _, _.
Qed.

(** C3. When the line entered for the temperature is not an integer
    literal, [int] raises [ValueError] right after the two prompts; nothing
    catches it, so nothing more is written on standard output or read
    from standard input, and the loop, and with it the program, ends with
    this exception. (What the interpreter writes on standard error for an
    uncaught exception is outside the model.) *)
Theorem bad_temperature_raises w a t rest fuel :
  stdin w = a :: t :: rest →
  lower a = "find" →
  py_int t = None →
  main_loop (S fuel) w =
  Some (Raise ValueError,
        set_stdin rest
          (set_stdout
             (stdout w ++ ["Choose an action (find/add/quit): ";
                           "What is the temperature today: "]) w)).
Proof.
  intros Hin Ha Ht. destruct w as [its d wr inp out rnd dr cl].
  cbn [stdin] in Hin. subst inp. world_norm.
  cbn [main_loop]. unfold loop_body.
  find_step. rewrite Ha. cbn [bool_decide decide_rel]. cbv beta iota.
  rewrite bool_decide_eq_true_2 by done.
  rewrite bind_run. unfold find_action.
  find_step. rewrite bind_run, (int_fail _ _ Ht).
  by rewrite <- !(assoc_L (++) out).
Qed.

(** ** The csv module *)

Lemma splitlines_nil text : splitlines text = [] → text = "".
Proof.
  destruct text as [|c rest]; [done|]. simpl.
  repeat case_bool_decide; try done.
  - destruct rest as [|c' rest']; [done|]. by case_bool_decide.
  - by destruct (splitlines rest).
Qed.

Lemma reader_from_cons_char self c l ls :
  reader_from self (String c l :: ls) =
  match parse_process_char self (Some c) with
  | None => ([], Some CsvError)
  | Some s1 => reader_from s1 (l :: ls)
  end.
Proof. simpl. by destruct (parse_process_char self (Some c)). Qed.

Lemma reader_from_eol self ls :
  reader_from self ("" :: ls) = after_eol self (λ s, reader_from s ls).
Proof. reflexivity. Qed.

(** [read_text] is [reader_from] on the lines of the text; when a line is
    open, the end of the text still closes it. *)
Lemma reader_from_splitlines_aux n :
  ∀ text self, (String.length text ≤ n)%nat →
    reader_from self (splitlines text) = read_text self false text
    ∧ reader_from self (match splitlines text with [] => [""] | l => l end)
      = read_text self true text.
Proof.
  induction n as [|n IH]; intros text self Hn.
  { destruct text; [|simpl in Hn; lia]. done. }
  destruct text as [|c rest]; [done|]. simpl in Hn.
  cut (reader_from self (splitlines (String c rest)) = read_text self false (String c rest)).
  { intros H. split; [done|].
    destruct (splitlines (String c rest)) eqn:Hs.
    - by apply splitlines_nil in Hs.
    - by rewrite H. }
  cbn [splitlines read_text]. case_bool_decide as Hlf.
  { rewrite reader_from_cons_char. destruct (parse_process_char self (Some c)); [|done].
    rewrite reader_from_eol. unfold after_eol.
    destruct (parse_process_char r None) as [s2|]; [|done].
    case_bool_decide.
    - by rewrite (proj1 (IH rest parse_reset ltac:(lia))).
    - by rewrite (proj1 (IH rest s2 ltac:(lia))). }
  case_bool_decide as Hcr.
  { destruct rest as [|c' rest'].
    - rewrite reader_from_cons_char. by destruct (parse_process_char self (Some c)).
    - case_bool_decide as Hlf'.
      + rewrite !reader_from_cons_char.
        destruct (parse_process_char self (Some c)); [|done].
        rewrite !reader_from_cons_char.
        destruct (parse_process_char r (Some c')) as [s2|]; [|done].
        rewrite reader_from_eol. unfold after_eol.
        destruct (parse_process_char s2 None) as [s3|]; [|done].
        simpl in Hn. case_bool_decide.
        * by rewrite (proj1 (IH rest' parse_reset ltac:(lia))).
        * by rewrite (proj1 (IH rest' s3 ltac:(lia))).
      + rewrite reader_from_cons_char.
        destruct (parse_process_char self (Some c)); [|done].
        rewrite reader_from_eol. unfold after_eol.
        destruct (parse_process_char r None) as [s2|]; [|done].
        case_bool_decide.
        * by rewrite (proj1 (IH (String c' rest') parse_reset ltac:(lia))).
        * by rewrite (proj1 (IH (String c' rest') s2 ltac:(lia))). }
  destruct (splitlines rest) as [|l ls] eqn:Hs.
  - rewrite reader_from_cons_char.
    destruct (parse_process_char self (Some c)) as [s1|]; [|done].
    rewrite <- (proj2 (IH rest s1 ltac:(lia))). by rewrite Hs.
  - rewrite reader_from_cons_char.
    destruct (parse_process_char self (Some c)) as [s1|]; [|done].
    rewrite <- (proj2 (IH rest s1 ltac:(lia))). by rewrite Hs.
Qed.

Lemma reader_from_splitlines self text :
  reader_from self (splitlines text) = read_text self false text.
Proof. by apply (reader_from_splitlines_aux (String.length text)). Qed.

(** *** Strings *)

Lemma app_nil_l_s (s : string) : "" +:+ s = s.
Proof. reflexivity. Qed.

Lemma app_cons_s c (a b : string) : String c a +:+ b = String c (a +:+ b).
Proof. reflexivity. Qed.

Lemma app_nil_r_s (s : string) : s +:+ "" = s.
Proof. induction s as [|c s IH]; [done|]. by rewrite app_cons_s, IH. Qed.

Lemma app_assoc_s (a b c : string) : (a +:+ b) +:+ c = a +:+ (b +:+ c).
Proof. induction a as [|x a IH]; [done|]. by rewrite !app_cons_s, IH. Qed.

Lemma length_app_s (a b : string) :
  String.length (a +:+ b) = (String.length a + String.length b)%nat.
Proof. induction a as [|x a IH]; [done|]. rewrite app_cons_s. simpl. by rewrite IH. Qed.

(** *** One character of the automaton *)

Lemma must_quote_false c :
  must_quote c = false → c ≠ COMMA ∧ c ≠ DQUOTE ∧ c ≠ LF ∧ c ≠ CR.
Proof.
  unfold must_quote, is_newline. rewrite !orb_false_iff, !bool_decide_eq_false. clear lower py_int. tauto.
Qed.

Lemma is_newline_false c : c ≠ LF → c ≠ CR → is_newline c = false.
Proof.
  intros. unfold is_newline. by rewrite !bool_decide_eq_false_2.
Qed.

Lemma parse_add_char_ok st acc fs c :
  (Z.of_nat (String.length acc) < field_limit) →
  parse_add_char (mkReader st acc fs) c = Some (mkReader st (acc +:+ String c "") fs).
Proof.
  intros. unfold parse_add_char. cbn [field state fields].
  by rewrite bool_decide_eq_false_2 by lia.
Qed.

Lemma ppc_in_field acc fs c :
  must_quote c = false →
  Z.of_nat (String.length acc) < field_limit →
  parse_process_char (mkReader IN_FIELD acc fs) (Some c)
  = Some (mkReader IN_FIELD (acc +:+ String c "") fs).
Proof.
  intros (? & ? & ? & ?)%must_quote_false ?.
  unfold parse_process_char. cbn [state].
  rewrite is_newline_false by done.
  rewrite bool_decide_eq_false_2 by done.
  by apply parse_add_char_ok.
Qed.

Lemma ppc_start_field fs c :
  must_quote c = false →
  parse_process_char (mkReader START_FIELD "" fs) (Some c)
  = Some (mkReader IN_FIELD (String c "") fs).
Proof.
  intros (? & ? & ? & ?)%must_quote_false.
  unfold parse_process_char, case_START_FIELD. cbn [state].
  rewrite is_newline_false by done.
  rewrite !bool_decide_eq_false_2 by done.
  by rewrite parse_add_char_ok.
Qed.

Lemma ppc_in_quoted acc fs c :
  c ≠ DQUOTE →
  Z.of_nat (String.length acc) < field_limit →
  parse_process_char (mkReader IN_QUOTED_FIELD acc fs) (Some c)
  = Some (mkReader IN_QUOTED_FIELD (acc +:+ String c "") fs).
Proof.
  intros ? ?. unfold parse_process_char. cbn [state].
  rewrite bool_decide_eq_false_2 by done.
  by apply parse_add_char_ok.
Qed.

Lemma ppc_quote_quote acc fs :
  Z.of_nat (String.length acc) < field_limit →
  parse_process_char (mkReader QUOTE_IN_QUOTED_FIELD acc fs) (Some DQUOTE)
  = Some (mkReader IN_QUOTED_FIELD (acc +:+ String DQUOTE "") fs).
Proof.
  intros ?. unfold parse_process_char. cbn [state].
  rewrite bool_decide_eq_true_2 by done.
  by rewrite parse_add_char_ok.
Qed.

Lemma field_done_start fs : field_done (mkReader START_FIELD "" fs) "" fs.
Proof. by split. Qed.

Lemma field_done_in_field f fs : field_done (mkReader IN_FIELD f fs) f fs.
Proof. by split. Qed.

Lemma field_done_quote f fs : field_done (mkReader QUOTE_IN_QUOTED_FIELD f fs) f fs.
Proof. by split. Qed.

(** *** Steps of [read_text] *)

Lemma read_text_open self o1 o2 text :
  text ≠ "" → read_text self o1 text = read_text self o2 text.
Proof. by destruct text. Qed.

Lemma read_text_normal self open c rest s1 :
  is_newline c = false →
  parse_process_char self (Some c) = Some s1 →
  read_text self open (String c rest) = read_text s1 true rest.
Proof.
  unfold is_newline. intros [? ?]%orb_false_iff Hs. cbn [read_text]. rewrite Hs.
  apply bool_decide_eq_false in H, H0.
  by rewrite !bool_decide_eq_false_2 by done.
Qed.

(** Inside a quoted field every character but the quote is data, line
    breaks included. *)
Lemma read_text_in_quoted acc fs open open' c rest s1 :
  parse_process_char (mkReader IN_QUOTED_FIELD acc fs) (Some c) = Some s1 →
  state s1 = IN_QUOTED_FIELD →
  rest ≠ "" →
  read_text (mkReader IN_QUOTED_FIELD acc fs) open (String c rest)
  = read_text s1 open' rest.
Proof.
  intros Hs Hst Hrest. cbn [read_text]. rewrite Hs.
  assert (∀ k, after_eol s1 k = k s1) as Heol.
  { intros k. unfold after_eol, parse_process_char. rewrite Hst.
    by rewrite bool_decide_eq_false_2 by (rewrite Hst; done). }
  case_bool_decide.
  { rewrite Heol. by apply read_text_open. }
  case_bool_decide.
  - destruct rest as [|c' rest']; [done|].
    case_bool_decide as Hc'.
    + subst c'. cbn [read_text]. by rewrite bool_decide_eq_true_2 by done.
    + rewrite Heol. by apply read_text_open.
  - by apply read_text_open.
Qed.

(** *** Reading back what the writer wrote *)

Lemma read_unquoted f :
  ∀ acc fs open tail,
    has_special f = false →
    Z.of_nat (String.length acc + String.length f) <= field_limit →
    tail ≠ "" →
    read_text (mkReader IN_FIELD acc fs) open (f +:+ tail)
    = read_text (mkReader IN_FIELD (acc +:+ f) fs) open tail.
Proof.
  induction f as [|c f IH]; intros acc fs open tail Hsp Hlen Htail.
  { by rewrite app_nil_l_s, app_nil_r_s. }
  cbn [has_special] in Hsp. apply orb_false_iff in Hsp as [Hc Hsp].
  cbn [String.length] in Hlen.
  rewrite app_cons_s.
  pose proof (must_quote_false _ Hc) as (_ & _ & ? & ?).
  rewrite (read_text_normal _ _ _ _ (mkReader IN_FIELD (acc +:+ String c "") fs)).
  - rewrite (read_text_open _ true open) by (by destruct f).
    rewrite IH; [|done| |done].
    + by rewrite app_assoc_s.
    + rewrite length_app_s. cbn [String.length]. lia.
  - by apply is_newline_false.
  - apply ppc_in_field; [done|lia].
Qed.

Lemma read_quoted_body f :
  ∀ acc fs open tail,
    Z.of_nat (String.length acc + String.length f) <= field_limit →
    read_text (mkReader IN_QUOTED_FIELD acc fs) open
      (double_quotes f +:+ String DQUOTE tail)
    = read_text (mkReader QUOTE_IN_QUOTED_FIELD (acc +:+ f) fs) true tail.
Proof.
  induction f as [|c f IH]; intros acc fs open tail Hlen.
  { cbn [double_quotes]. rewrite app_nil_l_s, app_nil_r_s.
    by apply read_text_normal. }
  cbn [String.length] in Hlen. cbn [double_quotes].
  assert (Z.of_nat (String.length (acc +:+ String c "") + String.length f)
          <= field_limit) as Hlen'.
  { rewrite length_app_s. cbn [String.length]. lia. }
  assert (acc +:+ String c f = (acc +:+ String c "") +:+ f) as ->.
  { by rewrite app_assoc_s. }
  case_bool_decide as Hc.
  - subst c. rewrite !app_cons_s.
    rewrite (read_text_normal _ _ _ _ (mkReader QUOTE_IN_QUOTED_FIELD acc fs)) by done.
    rewrite (read_text_normal _ _ _ _
               (mkReader IN_QUOTED_FIELD (acc +:+ String DQUOTE "") fs)).
    + by apply IH.
    + done.
    + apply ppc_quote_quote. lia.
  - rewrite app_cons_s.
    rewrite (read_text_in_quoted _ _ _ true _ _
               (mkReader IN_QUOTED_FIELD (acc +:+ String c "") fs)).
    + by apply IH.
    + apply ppc_in_quoted; [done|lia].
    + done.
    + by destruct (double_quotes f).
Qed.

(** One field as [join_append] writes it, read from the start of a field:
    the reader ends in a state where the field is complete. *)
Lemma read_field f fs :
  Z.of_nat (String.length f) <= field_limit →
  ∃ s, field_done s f fs ∧
    ∀ open tail, tail ≠ "" →
      read_text (mkReader START_FIELD "" fs) open (join_append f +:+ tail)
      = read_text s open tail.
Proof.
  intros Hlen. unfold join_append. destruct (has_special f) eqn:Hsp.
  - exists (mkReader QUOTE_IN_QUOTED_FIELD f fs). split; [apply field_done_quote|].
    intros open tail Htail. rewrite app_cons_s, app_assoc_s, app_cons_s, app_nil_l_s.
    rewrite (read_text_normal _ _ _ _ (mkReader IN_QUOTED_FIELD "" fs)) by done.
    rewrite read_quoted_body by (cbn [String.length]; lia).
    rewrite app_nil_l_s. by apply read_text_open.
  - destruct f as [|c f].
    + exists (mkReader START_FIELD "" fs). split; [apply field_done_start|].
      intros open tail _. by rewrite app_nil_l_s.
    + exists (mkReader IN_FIELD (String c f) fs). split; [apply field_done_in_field|].
      intros open tail Htail. cbn [has_special] in Hsp.
      apply orb_false_iff in Hsp as [Hc Hsp]. cbn [String.length] in Hlen.
      pose proof (must_quote_false _ Hc) as (_ & _ & ? & ?).
      rewrite app_cons_s.
      rewrite (read_text_normal _ _ _ _ (mkReader IN_FIELD (String c "") fs)).
      * rewrite read_unquoted; [|done| |done].
        -- rewrite app_cons_s, app_nil_l_s. by apply read_text_open.
        -- cbn [String.length]. lia.
      * by apply is_newline_false.
      * by apply ppc_start_field.
Qed.

(** The end of a record: CR LF after a complete field. *)
Lemma read_crlf s f fs open rest :
  field_done s f fs →
  read_text s open (String CR (String LF rest))
  = let '(rows, e) := read_text parse_reset false rest in ((fs ++ [f]) :: rows, e).
Proof.
  intros [_ Hcr]. cbn [read_text]. rewrite Hcr.
  rewrite (bool_decide_eq_false_2 (CR = LF)) by done.
  rewrite (bool_decide_eq_true_2 (CR = CR)) by done.
  rewrite (bool_decide_eq_true_2 (LF = LF)) by done.
  reflexivity.
Qed.

Lemma read_comma s f fs open tail :
  field_done s f fs →
  read_text s open (String COMMA tail)
  = read_text (mkReader START_FIELD "" (fs ++ [f])) true tail.
Proof. intros [Hc _]. by apply read_text_normal. Qed.

(** The fields of a record, from the start of a field to the line end. *)
Lemma read_join_fields row :
  ∀ fs open rest,
    row ≠ [] →
    Forall (λ f, Z.of_nat (String.length f) <= field_limit) row →
    read_text (mkReader START_FIELD "" fs) open
      (join_fields row +:+ String CR (String LF rest))
    = let '(rows, e) := read_text parse_reset false rest in ((fs ++ row) :: rows, e).
Proof.
  induction row as [|f row IH]; intros fs open rest Hne Hlen; [done|].
  apply Forall_cons in Hlen as [Hf Hlen].
  destruct (read_field f fs Hf) as (s & Hdone & Hread).
  destruct row as [|g row].
  - cbn [join_fields]. rewrite Hread by done. by apply read_crlf.
  - change (join_fields (f :: g :: row))
      with (join_append f +:+ String COMMA (join_fields (g :: row))).
    rewrite app_assoc_s, app_cons_s. rewrite Hread by done.
    rewrite (read_comma _ _ _ _ _ Hdone).
    rewrite IH by done. by rewrite <- (assoc_L (++)).
Qed.

Lemma join_fields_head row c t :
  join_fields row = String c t → is_newline c = false.
Proof.
  destruct row as [|f row]; [done|].
  assert (∀ tail, join_append f +:+ tail = String c t →
                  (f = "" ∧ tail = String c t) ∨ is_newline c = false) as Hhead.
  { intros tail. unfold join_append. destruct (has_special f) eqn:Hsp.
    - rewrite app_cons_s. intros [= <- _]. by right.
    - destruct f as [|x f]; [rewrite app_nil_l_s; by left|].
      rewrite app_cons_s. intros [= <- _]. right.
      cbn [has_special] in Hsp. apply orb_false_iff in Hsp as [Hx _].
      pose proof (must_quote_false _ Hx) as (_ & _ & ? & ?).
      by apply is_newline_false. }
  destruct row as [|g row].
  - cbn [join_fields]. intros H. rewrite <- (app_nil_r_s (join_append f)) in H.
    apply Hhead in H as [[_ ?]|?]; done.
  - change (join_fields (f :: g :: row))
      with (join_append f +:+ String COMMA (join_fields (g :: row))).
    intros H. apply Hhead in H as [[_ [= <- _]]|?]; done.
Qed.

Lemma read_text_start c t open :
  is_newline c = false →
  read_text parse_reset open (String c t)
  = read_text (mkReader START_FIELD "" []) open (String c t).
Proof.
  intros Hc. cbn [read_text].
  assert (parse_process_char parse_reset (Some c)
          = parse_process_char (mkReader START_FIELD "" []) (Some c)) as ->; [|done].
  unfold parse_process_char, parse_reset. cbn [state]. by rewrite Hc.
Qed.

(** What [writerow] writes is read back as the record that was written;
    the reader then goes on with the text that follows. *)
Lemma read_writerow row rest :
  join_fields row ≠ "" →
  Forall (λ f, Z.of_nat (String.length f) <= field_limit) row →
  read_text parse_reset false (writerow row +:+ rest)
  = let '(rows, e) := read_text parse_reset false rest in (row :: rows, e).
Proof.
  intros Hne Hlen. unfold writerow.
  rewrite (bool_decide_eq_false_2 (join_fields row = "")) by done.
  rewrite andb_false_r, app_assoc_s, !app_cons_s, app_nil_l_s.
  destruct (join_fields row) as [|c t] eqn:Hj; [done|].
  rewrite app_cons_s, read_text_start by (by eapply join_fields_head).
  rewrite <- app_cons_s, <- Hj.
  apply (read_join_fields row []); [|done]. by intros ->.
Qed.

(** *** Appending to a text that ends a record *)

Lemma ends_line_tail c rest : ends_line (String c rest) = true → ends_line rest = true.
Proof. by destruct rest. Qed.

Lemma splitlines_app_aux n :
  ∀ a b, (String.length a ≤ n)%nat →
    ends_line a = true →
    (∀ t, b ≠ String LF t) →
    splitlines (a +:+ b) = splitlines a ++ splitlines b.
Proof.
  induction n as [|n IH]; intros a b Hn Ha Hb.
  { destruct a; [done|simpl in Hn; lia]. }
  destruct a as [|c rest]; [done|]. simpl in Hn.
  pose proof (ends_line_tail _ _ Ha) as Hrest.
  rewrite app_cons_s. cbn [splitlines]. case_bool_decide as Hlf.
  { rewrite IH by (done || lia). done. }
  case_bool_decide as Hcr.
  { destruct rest as [|c' rest'].
    - rewrite app_nil_l_s. destruct b as [|c' b']; [done|].
      rewrite bool_decide_eq_false_2; [done|]. intros ->. by eapply Hb.
    - rewrite app_cons_s. simpl in Hn. case_bool_decide.
      + rewrite IH; [done|lia| |done]. by eapply ends_line_tail.
      + rewrite <- app_cons_s. rewrite IH by (done || simpl; lia). done. }
  destruct rest as [|c' rest'].
  { cbn [ends_line] in Ha. unfold is_newline in Ha.
    rewrite !bool_decide_eq_false_2 in Ha by done. done. }
  rewrite IH by (done || lia).
  destruct (splitlines (String c' rest')) as [|l ls] eqn:Hs; [|done].
  by apply splitlines_nil in Hs.
Qed.

Lemma splitlines_app a b :
  ends_line a = true →
  (∀ t, b ≠ String LF t) →
  splitlines (a +:+ b) = splitlines a ++ splitlines b.
Proof. by apply (splitlines_app_aux (String.length a)). Qed.

Lemma reader_from_app l1 :
  ∀ self l2,
    boundary_from self l1 = true →
    reader_from self (l1 ++ l2) =
    let '(r1, _) := reader_from self l1 in
    let '(r2, e) := reader_from parse_reset l2 in (r1 ++ r2, e).
Proof.
  induction l1 as [|line l1 IH]; intros self l2 Hb.
  { cbn [boundary_from] in Hb. apply bool_decide_eq_true in Hb. subst self.
    cbn [app]. change (reader_from parse_reset []) with (@nil (list string), @None exn).
    by destruct (reader_from parse_reset l2). }
  cbn [boundary_from] in Hb. cbn [app reader_from].
  destruct (feed_line self line) as [self'|]; [|done].
  case_bool_decide.
  - rewrite IH by done.
    destruct (reader_from parse_reset l1) as [r1 e1].
    by destruct (reader_from parse_reset l2).
  - by rewrite IH.
Qed.

Lemma writerow_not_LF row t :
  join_fields row ≠ "" → writerow row ≠ String LF t.
Proof.
  intros Hne. unfold writerow.
  rewrite (bool_decide_eq_false_2 (join_fields row = "")) by done.
  rewrite andb_false_r.
  destruct (join_fields row) as [|c s] eqn:Hj; [done|].
  rewrite app_cons_s. intros [= -> _].
  by apply join_fields_head in Hj.
Qed.

(** Appending a written record to a well terminated file adds this record,
    and only it, to what the reader yields. *)
Lemma csv_reader_append text row rows e :
  well_terminated text = true →
  csv_reader text = (rows, e) →
  join_fields row ≠ "" →
  Forall (λ f, Z.of_nat (String.length f) <= field_limit) row →
  csv_reader (text +:+ writerow row) = (rows ++ [row], None).
Proof.
  unfold well_terminated, csv_reader.
  intros [Hend Hb]%andb_true_iff Hrows Hne Hlen.
  rewrite splitlines_app; [|done|intros t; by apply writerow_not_LF].
  rewrite reader_from_app by done. rewrite Hrows.
  rewrite reader_from_splitlines.
  rewrite <- (app_nil_r_s (writerow row)).
  by rewrite read_writerow.
Qed.

(** ** Loading the catalog *)

(** Under [HEADER] every column is found, with the value at its
    position, or with [None] when the record is too short. *)
Lemma DictReader_row_HEADER row :
  let d := DictReader_row HEADER row in
  d !! "category" = Some (row !! 0%nat)
  ∧ d !! "name" = Some (row !! 1%nat)
  ∧ d !! "color" = Some (row !! 2%nat)
  ∧ d !! "temperature" = Some (row !! 3%nat)
  ∧ d !! "style" = Some (row !! 4%nat)
  ∧ d !! "weather" = Some (row !! 5%nat).
Proof.
  unfold DictReader_row, HEADER.
  destruct row as [|a [|b [|c [|d [|e [|f rest]]]]]];
    cbn [length drop zip_with foldl fst snd lookup list_lookup];
    try (replace (drop (length rest) []) with (@nil string) by (by destruct rest));
    cbn [foldl];
    repeat split.
  all: repeat (rewrite lookup_insert_ne by done).
  all: try by rewrite lookup_insert_eq.
Qed.

Lemma getitem_run d key v (w : World) :
  d !! key = Some v → getitem d key w = (Ok v, w).
Proof. unfold getitem. by intros ->. Qed.

Lemma load_rows_HEADER rows :
  ∀ its d wr inp out rnd dr cl,
    load_rows HEADER rows (mkWorld its d wr inp out rnd dr cl)
    = (Ok tt,
       mkWorld (its ++ map row_item (filter (λ r, r ≠ []) rows))
         d wr inp out rnd dr cl).
Proof.
  induction rows as [|row rows IH]; intros its d wr inp out rnd dr cl.
  { cbn. by rewrite app_nil_r. }
  destruct row as [|x row].
  { cbn [load_rows]. rewrite IH. by rewrite filter_cons_False by (by intros []). }
  cbn [load_rows].
  destruct (DictReader_row_HEADER (x :: row)) as (H1 & H2 & H3 & H4 & H5 & H6).
  set (dict := DictReader_row HEADER (x :: row)) in *.
  rewrite bind_run, (getitem_run _ _ _ _ H1).
  rewrite bind_run, (getitem_run _ _ _ _ H2).
  rewrite bind_run, (getitem_run _ _ _ _ H3).
  rewrite bind_run, (getitem_run _ _ _ _ H4).
  rewrite bind_run, (getitem_run _ _ _ _ H5).
  rewrite bind_run, (getitem_run _ _ _ _ H6).
  rewrite bind_run, modify_world_run. world_norm. cbv beta iota.
  rewrite IH. rewrite filter_cons_True by done.
  cbn [map]. by rewrite <- (assoc_L (++)).
Qed.

(** A new process on a file whose first record is [HEADER] loads one item
    per non-empty record, in the order of the file. *)
Lemma reload_HEADER text rows :
  csv_reader text = (HEADER :: rows, None) →
  reload (Some text) = (Ok tt, map row_item (filter (λ r, r ≠ []) rows)).
Proof.
  intros Hread. unfold reload, ItemManager__init__, load_items, fresh_process.
  rewrite bind_run, modify_world_run. world_norm. cbv beta iota.
  rewrite bind_run, get_world_run. cbv beta iota. cbn [disk].
  rewrite Hread. rewrite bind_run, load_rows_HEADER. by cbv beta iota.
Qed.

(** C5. For every six lines typed, [add_item] first adds the item to the
    catalog in memory and then appends one record to the file: the new
    text is the text that was there (none if there was no file) followed
    by the record, so nothing that was in the file is rewritten or
    reordered; when the file cannot be written the item stays in memory
    and the file is unchanged. When, besides, the file starts with the
    header record, ends with a line break that closes a record, and no
    entered field exceeds the field size limit of [csv], a new process
    that loads the file afterwards obtains the items it would have
    obtained before, in the same order, followed by the new item, once. *)
Theorem add_item_then_reload w c n co t we s rest :
  stdin w = c :: n :: co :: t :: we :: s :: rest →
  let item := mkItem (Some c) (Some n) (Some co) (Some t) (Some s) (Some we) in
  let record := writerow [c; n; co; t; s; we] in
  items (add_item w).2 = items w ++ [item]
  ∧ (if disk_writable w
     then (add_item w).1 = Ok tt
          ∧ disk (add_item w).2 = Some (default "" (disk w) +:+ record)
     else (add_item w).1 = Raise PermissionError
          ∧ disk (add_item w).2 = disk w)
  ∧ (∀ text rows,
       disk w = Some text →
       disk_writable w = true →
       csv_reader text = (HEADER :: rows, None) →
       well_terminated text = true →
       Forall (λ f, Z.of_nat (String.length f) <= field_limit)
         [c; n; co; t; s; we] →
       let old := map row_item (filter (λ r, r ≠ []) rows) in
       disk (add_item w).2 = Some (text +:+ record)
       ∧ reload (disk w) = (Ok tt, old)
       ∧ reload (disk (add_item w).2) = (Ok tt, old ++ [item])).
Proof.
  intros Hin item record.
  destruct w as [its d wr inp out rnd dr cl].
  cbn [stdin disk disk_writable items] in *. subst inp.
  rewrite add_item_run. cbv zeta. split; [|split].
  - by destruct wr.
  - by destruct wr.
  - intros text rows -> -> Hread Hwt Hlen. cbn [snd disk].
    change (default "" (Some text)) with text.
    split; [done|]. split; [by apply reload_HEADER|].
    assert (csv_reader (text +:+ writerow [c; n; co; t; s; we])
            = (HEADER :: (rows ++ [[c; n; co; t; s; we]]), None)) as Hnew.
    { apply (csv_reader_append text _ (HEADER :: rows) None); try done.
      change (join_fields [c; n; co; t; s; we])
        with (join_append c +:+ String COMMA (join_fields [n; co; t; s; we])).
      by destruct (join_append c). }
    rewrite (reload_HEADER _ _ Hnew).
    rewrite filter_app, map_app.
    by rewrite (filter_cons_True _ [c; n; co; t; s; we]) by done.
Qed.

Lemma add_item_then_reload_witness :
  let w := fresh_process (Some (header_line +:+ parka_line)) true
             ["shirt"; "Tee"; "White"; "hot"; "sunny"; "casual"] (λ _, 0%nat) in
  items (add_item w).2 = [tee]
  ∧ (add_item w).1 = Ok tt
  ∧ disk (add_item w).2 =
      Some ((header_line +:+ parka_line) +:+
            writerow ["shirt"; "Tee"; "White"; "hot"; "casual"; "sunny"])
  ∧ reload (disk w) = (Ok tt, [parka])
  ∧ reload (disk (add_item w).2) = (Ok tt, [parka; tee]).
Proof.
  intros w.
  destruct (add_item_then_reload w "shirt" "Tee" "White" "hot" "sunny" "casual" []
              eq_refl) as (Hmem & Hfile & Hload).
  destruct (Hload (header_line +:+ parka_line)
              [["jacket"; "Parka"; "Blue"; "cold"; "casual"; "rainy"]])
    as (Hdisk & Hold & Hnew).
  - reflexivity.
  - reflexivity.
  - vm_compute. reflexivity.
  - vm_compute. reflexivity.
  - apply (bool_decide_unpack _). vm_compute. exact I.
  - destruct Hfile as [Hok _]. repeat split; assumption.
Defined.

(** An empty file: the record that [add_item] appends becomes the header
    of the file, and a new process loads no item at all. *)
Lemma appended_record_lost_on_empty_file :
  ¬ appended_record_reloaded
      (fresh_process (Some "") true
         ["jacket"; "Parka"; "Blue"; "cold"; "rainy"; "casual"] (λ _, 0%nat)).
Proof.
  intros H.
  destruct (H "jacket" "Parka" "Blue" "cold" "rainy" "casual" [] eq_refl)
    as (old & Hold & Hnew).
  vm_compute in Hold. injection Hold as <-.
  vm_compute in Hnew. discriminate.
Qed.

(** A file whose last line has no line break: the appended record
    continues that line, so the last record is changed and the new one is
    not found. *)
Example append_without_final_line_break :
  let text := header_line +:+ "jacket,Parka,Blue,cold,casual,rainy" in
  let w := fresh_process (Some text) true
             ["shirt"; "Tee"; "White"; "hot"; "sunny"; "casual"] (λ _, 0%nat) in
  well_terminated text = false
  ∧ reload (disk w) = (Ok tt, [parka])
  ∧ reload (disk (add_item w).2)
    = (Ok tt, [mkItem (Some "jacket") (Some "Parka") (Some "Blue") (Some "cold")
                 (Some "casual") (Some "rainyshirt")]).
Proof. vm_compute. done. Qed.

(** Without write permission [add_item] raises after the item was added
    to the catalog in memory: the in-memory update comes before the
    write. *)
Example add_item_read_only :
  let w := fresh_process (Some (header_line +:+ parka_line)) false
             ["shirt"; "Tee"; "White"; "hot"; "sunny"; "casual"] (λ _, 0%nat) in
  (add_item w).1 = Raise PermissionError
  ∧ items (add_item w).2 = [tee]
  ∧ disk (add_item w).2 = disk w.
Proof. vm_compute. done. Qed.

(** * Further properties *)

(** ** Start-up and the actions of the loop *)

(** X1. Without the file [items.csv] the program ends at start-up with
    [FileNotFoundError]: the catalog is empty, nothing is printed and no
    input is read. *)
Theorem main_missing_file w fuel :
  disk w = None →
  main fuel w = Some (Raise FileNotFoundError, set_items [] w).
Proof.
  intros Hd. destruct w as [its d wr inp out rnd dr cl]. cbn [disk] in Hd. subst d.
  reflexivity.
Qed.

Lemma loop_body_action its d wr a rest out rnd dr cl :
  loop_body (mkWorld its d wr (a :: rest) out rnd dr cl) =
  let w1 := mkWorld its d wr rest
              (out ++ ["Choose an action (find/add/quit): "]) rnd dr cl in
  if bool_decide (lower a = "find") then (find_action ;; ret Continue) w1
  else if bool_decide (lower a = "add") then (add_item ;; ret Continue) w1
  else if bool_decide (lower a = "quit") then (Ok Break, w1)
  else (print "Invalid action. Please choose again." ;; ret Continue) w1.
Proof.
  unfold loop_body. rewrite bind_run, input_run. cbv beta iota zeta.
  by repeat case_bool_decide.
Qed.

(** X2. A line that is none of find, add and quit (in any letter case)
    makes the loop print the invalid-action message and go on: only the
    line is consumed, and the prompt and the message are printed. *)
Theorem invalid_action_continues w a rest :
  stdin w = a :: rest →
  lower a ≠ "find" → lower a ≠ "add" → lower a ≠ "quit" →
  loop_body w =
  (Ok Continue,
   set_stdin rest
     (set_stdout
        (stdout w ++ ["Choose an action (find/add/quit): ";
                      line "Invalid action. Please choose again."]) w)).
Proof.
  intros Hin H1 H2 H3. destruct w as [its d wr inp out rnd dr cl].
  cbn [stdin] in Hin. subst inp. rewrite loop_body_action. cbv zeta.
  rewrite !bool_decide_eq_false_2 by done.
  rewrite bind_run, print_run. world_norm.
  by rewrite <- (assoc_L (++) out).
Qed.

(** X3. The line quit, in any letter case, ends the loop normally: the
    lines after it are not read, and besides the prompt nothing is
    printed or changed. *)
Theorem quit_ends_loop w a rest fuel :
  stdin w = a :: rest →
  lower a = "quit" →
  main_loop (S fuel) w =
  Some (Ok tt,
        set_stdin rest
          (set_stdout (stdout w ++ ["Choose an action (find/add/quit): "]) w)).
Proof.
  intros Hin Ha. destruct w as [its d wr inp out rnd dr cl].
  cbn [stdin] in Hin. subst inp. cbn [main_loop]. rewrite loop_body_action.
  cbv zeta. rewrite Ha. reflexivity.
Qed.

(** X4. When standard input ends where an action is expected, the loop
    ends with [EOFError] after printing the prompt. *)
Theorem end_of_input_raises w fuel :
  stdin w = [] →
  main_loop (S fuel) w =
  Some (Raise EOFError,
        set_stdout (stdout w ++ ["Choose an action (find/add/quit): "]) w).
Proof.
  intros Hin. destruct w as [its d wr inp out rnd dr cl].
  cbn [stdin] in Hin. subst inp. reflexivity.
Qed.

Ltac eof_step :=
  rewrite bind_run;
  first [ rewrite input_run | rewrite input_eof ];
  cbv beta iota.

(** X5. When fewer than six lines are left, [add_item] raises [EOFError]
    at the first prompt without an answer: no item is added to the
    catalog and nothing is written to the file. *)
Theorem add_item_incomplete w :
  (length (stdin w) < 6)%nat →
  (add_item w).1 = Raise EOFError
  ∧ items (add_item w).2 = items w
  ∧ disk (add_item w).2 = disk w
  ∧ stdin (add_item w).2 = [].
Proof.
  intros Hlen. destruct w as [its d wr inp out rnd dr cl].
  cbn [stdin] in Hlen. unfold add_item.
  destruct inp as [|c [|n [|co [|t [|we [|s rest]]]]]];
    [| | | | | | simpl in Hlen; lia];
    repeat eof_step; done.
Qed.

Lemma add_item_incomplete_witness :
  let w := set_items [parka]
             (fresh_process (Some header_line) true ["shirt"; "Tee"] (λ _, 0%nat)) in
  (add_item w).1 = Raise EOFError
  ∧ items (add_item w).2 = [parka]
  ∧ disk (add_item w).2 = Some header_line
  ∧ stdin (add_item w).2 = [].
Proof.
  intros w. apply (add_item_incomplete w). simpl. lia.
Defined.

(** ** The selector, continued *)

(** The loop of [choose_item] computes the matching items of the catalog,
    in the order of the catalog. *)
Lemma collect_valid_filter K T S l acc :
  collect_valid (temperature_check T) S K l acc = acc ++ filter (Matches K T S) l.
Proof.
  revert acc. induction l as [|x l IH]; intros acc; cbn [collect_valid].
  { by rewrite filter_nil, app_nil_r. }
  rewrite IH. destruct (matches _ _ _ x) eqn:Hm.
  - apply matches_spec in Hm. rewrite filter_cons_True by done.
    by rewrite <- (assoc_L (++)).
  - rewrite filter_cons_False; [done|]. intros HM%matches_spec. congruence.
Qed.

Lemma nth_lookup_default {A} (l : list A) (d : A) (i : nat) :
  (i < length l)%nat → l !! i = Some (nth i l d).
Proof.
  revert i. induction l as [|x l IH]; intros [|i] Hi; simpl in *; try lia; [done|].
  apply IH. lia.
Qed.

Lemma choose_item_index w K T S :
  let valid := filter (Matches K T S) (items w) in
  (choose_item K T S w).1 = Ok (valid !! (rand w (draws w) mod length valid)%nat)
  ∧ draws (choose_item K T S w).2
    = (draws w + if valid is [] then 0 else 1)%nat.
Proof.
  intros valid. rewrite choose_item_run. cbv zeta.
  rewrite collect_valid_filter, app_nil_l. fold valid.
  destruct valid as [|first rest] eqn:Hv; cbn [fst snd].
  - split; [done|]. cbn [draws set_calls]. lia.
  - split.
    + f_equal. symmetry. apply nth_lookup_default.
      apply Nat.mod_upper_bound. done.
    + cbn [draws set_draws set_calls]. lia.
Qed.

(** X7. When exactly one item of the catalog matches, [choose_item]
    returns it, whatever the random source draws. *)
Theorem choose_item_unique w K T S item :
  filter (Matches K T S) (items w) = [item] →
  (choose_item K T S w).1 = Ok (Some item).
Proof.
  intros Hv. destruct (choose_item_index w K T S) as [Hr _].
  rewrite Hr, Hv. cbn [length]. by rewrite Nat.mod_1_r.
Qed.

Lemma choose_item_unique_witness :
  let w := set_items [parka; tee] (fresh_process None true [] (λ n, (7 * n + 3)%nat)) in
  (choose_item "shirt" 30 "casual" w).1 = Ok (Some tee).
Proof.
  intros w. apply (choose_item_unique w "shirt" 30 "casual" tee).
  vm_compute. reflexivity.
Defined.

(** X8. After [add_item], also when the write to the file fails,
    [choose_item] with the category and the style of the new item and a
    temperature of its band returns the new item, provided no older item
    of the catalog matches that query. *)
Theorem add_item_then_choose w c n co t we s rest T :
  stdin w = c :: n :: co :: t :: we :: s :: rest →
  temperature_check T = t →
  Forall (λ item, ¬ Matches c T s item) (items w) →
  (choose_item c T s (add_item w).2).1
  = Ok (Some (mkItem (Some c) (Some n) (Some co) (Some t) (Some s) (Some we))).
Proof.
  intros Hin Ht Hold. destruct w as [its d wr inp out rnd dr cl].
  cbn [stdin items] in *. subst inp.
  destruct (choose_item_index
              (add_item (mkWorld its d wr (c :: n :: co :: t :: we :: s :: rest)
                                 out rnd dr cl)).2 c T s) as [Hr _].
  rewrite Hr. clear Hr. rewrite add_item_run. cbv zeta.
  assert (filter (Matches c T s)
            (its ++ [mkItem (Some c) (Some n) (Some co) (Some t) (Some s) (Some we)])
          = [mkItem (Some c) (Some n) (Some co) (Some t) (Some s) (Some we)]) as Hv.
  { rewrite filter_app.
    assert (filter (Matches c T s) its = []) as ->.
    { clear -Hold. induction Hold as [|x l Hx _ IH]; [done|].
      by rewrite filter_cons_False. }
    rewrite filter_cons_True; [done|]. unfold Matches. by rewrite Ht. }
  destruct wr; cbn [snd items]; rewrite Hv; cbn [length];
    by rewrite Nat.mod_1_r.
Qed.

Lemma add_item_then_choose_witness :
  let w := set_items [parka]
             (fresh_process (Some header_line) false
                ["shirt"; "Tee"; "White"; "hot"; "sunny"; "casual"] (λ _, 5%nat)) in
  (choose_item "shirt" 25 "casual" (add_item w).2).1 = Ok (Some tee).
Proof.
  intros w.
  apply (add_item_then_choose w "shirt" "Tee" "White" "hot" "sunny" "casual" [] 25).
  - reflexivity.
  - reflexivity.
  - apply (bool_decide_unpack _). vm_compute. exact I.
Defined.

(** ** Loading, continued *)

(** X9. When the first record of the file is the header, [load_items]
    never raises: a new process loads one item for every record after the
    header that is not empty, in the order of the file; a column without a
    value in a short record is [None], and values beyond the sixth are
    ignored. *)
Theorem load_items_under_header text rows :
  csv_reader text = (HEADER :: rows, None) →
  reload (Some text) = (Ok tt, map row_item (filter (λ r, r ≠ []) rows)).
Proof. apply reload_HEADER. Qed.

Lemma load_items_under_header_witness :
  reload (Some (header_line +:+ String LF "" +:+ "jacket,Parka" +:+ String LF ""
                +:+ parka_line +:+ "a,b,c,d,e,f,g,h"))
  = (Ok tt,
     [mkItem (Some "jacket") (Some "Parka") None None None None;
      parka;
      mkItem (Some "a") (Some "b") (Some "c") (Some "d") (Some "e") (Some "f")]).
Proof.
  apply (load_items_under_header _
           [[]; ["jacket"; "Parka"];
            ["jacket"; "Parka"; "Blue"; "cold"; "casual"; "rainy"];
            ["a"; "b"; "c"; "d"; "e"; "f"; "g"; "h"]]).
  vm_compute. reflexivity.
Defined.

(** A column name that is not in the header is not a key of the
    dictionary of any record. *)
Lemma foldl_insert_some_notin (pairs : list (string * string)) :
  ∀ (d : gmap string (option string)) key,
    d !! key = None → key ∉ pairs.*1 →
    foldl (λ d kv, <[kv.1 := Some kv.2]> d) d pairs !! key = None.
Proof.
  induction pairs as [|[k v] pairs IH]; intros d key Hd Hk; [done|].
  cbn [foldl]. cbn [fmap list_fmap fst] in Hk.
  apply not_elem_of_cons in Hk as [Hne Hk].
  apply IH; [|done]. cbn [fst snd]. by rewrite lookup_insert_ne.
Qed.

Lemma foldl_insert_none_notin (keys : list string) :
  ∀ (d : gmap string (option string)) key,
    d !! key = None → key ∉ keys →
    foldl (λ d k, <[k := None]> d) d keys !! key = None.
Proof.
  induction keys as [|k keys IH]; intros d key Hd Hk; [done|].
  cbn [foldl]. apply not_elem_of_cons in Hk as [Hne Hk].
  apply IH; [|done]. by rewrite lookup_insert_ne.
Qed.

Lemma DictReader_row_missing fieldnames row key :
  key ∉ fieldnames → DictReader_row fieldnames row !! key = None.
Proof.
  intros Hk. unfold DictReader_row.
  apply foldl_insert_none_notin.
  - apply foldl_insert_some_notin; [done|].
    intros Hin. apply Hk. apply list_elem_of_fmap in Hin as ([k v] & -> & Hin).
    by apply elem_of_zip_l in Hin.
  - intros Hin. apply Hk. by eapply subseteq_drop.
Qed.

Lemma load_rows_missing fieldnames key rows :
  key ∈ HEADER → key ∉ fieldnames →
  ∀ w, filter (λ r, r ≠ []) rows ≠ [] →
       load_rows fieldnames rows w = (Raise KeyError, w).
Proof.
  intros Hkey Hmiss w. induction rows as [|row rows IH]; [done|].
  destruct row as [|x row].
  { rewrite filter_cons_False by (by intros []). apply IH. }
  intros _. cbn [load_rows].
  pose proof (DictReader_row_missing fieldnames (x :: row) key Hmiss) as Hnone.
  set (dict := DictReader_row fieldnames (x :: row)) in *.
  unfold HEADER in Hkey.
  repeat (apply elem_of_cons in Hkey as [->|Hkey]);
    [..|by apply elem_of_nil in Hkey];
    repeat (rewrite bind_run;
            match goal with
            | |- context [getitem dict ?k ?w0] =>
                let E := fresh "E" in
                destruct (dict !! k) as [?|] eqn:E;
                [ try congruence;
                  rewrite (getitem_run _ _ _ w0 E); cbv beta iota; clear E
                | unfold getitem at 1; rewrite E; reflexivity ]
            end).
Qed.

(** X10. When the header of the file lacks one of the six columns and a
    non-empty record follows it, a new process ends at start-up with
    [KeyError], with an empty catalog. *)
Theorem load_items_missing_column text fieldnames rows e key :
  csv_reader text = (fieldnames :: rows, e) →
  key ∈ HEADER → key ∉ fieldnames →
  filter (λ r, r ≠ []) rows ≠ [] →
  reload (Some text) = (Raise KeyError, []).
Proof.
  intros Hread Hkey Hmiss Hrows.
  unfold reload, ItemManager__init__, load_items, fresh_process.
  rewrite bind_run, modify_world_run. world_norm. cbv beta iota.
  rewrite bind_run, get_world_run. cbv beta iota. cbn [disk].
  rewrite Hread. rewrite bind_run.
  by rewrite (load_rows_missing fieldnames key rows Hkey Hmiss _ Hrows).
Qed.

Lemma load_items_missing_column_witness :
  reload (Some ("category,name,colour,temperature,style,weather" +:+ CRLF
                +:+ parka_line))
  = (Raise KeyError, []).
Proof.
  apply (load_items_missing_column _
           ["category"; "name"; "colour"; "temperature"; "style"; "weather"]
           [["jacket"; "Parka"; "Blue"; "cold"; "casual"; "rainy"]] None "color").
  - vm_compute. reflexivity.
  - apply (bool_decide_unpack _). vm_compute. exact I.
  - apply (bool_decide_unpack _). vm_compute. exact I.
  - discriminate.
Defined.

(** ** What a run keeps *)

Global Instance store_same_preorder : PreOrder store_same.
Proof.
  split.
  - by intros w.
  - intros w1 w2 w3 (? & ? & ?) (? & ? & ?). unfold store_same. by repeat split; congruence.
Qed.

Lemma disk_grows_refl d : disk_grows d d.
Proof. destruct d as [text|]; [|done]. exists "". by rewrite app_nil_r_s. Qed.

Lemma disk_grows_trans d1 d2 d3 :
  disk_grows d1 d2 → disk_grows d2 d3 → disk_grows d1 d3.
Proof.
  destruct d1 as [t1|]; [|done]. intros [m1 ->] [m2 ->].
  exists (m1 +:+ m2). by rewrite app_assoc_s.
Qed.

Global Instance grows_preorder : PreOrder grows.
Proof.
  split.
  - intros w. repeat split; try done. apply disk_grows_refl.
  - intros w1 w2 w3 (? & ? & ? & ? & ?) (? & ? & ? & ? & ?).
    repeat split; try (by etrans); try congruence.
    by eapply disk_grows_trans.
Qed.

Section Keeps.

Context (R : World → World → Prop) (HR : PreOrder R).

Lemma keeps_ret {A} (a : A) : keeps R (ret a).
Proof using HR. by intros w. Qed.

Lemma keeps_raise {A} e : keeps R (@raise A e).
Proof using HR. by intros w. Qed.

Lemma keeps_get_world : keeps R get_world.
Proof using HR. by intros w. Qed.

Lemma keeps_bind_get {B} (k : World → Py B) :
  (∀ w, R w (k w w).2) → keeps R (bind get_world k).
Proof. intros H w. apply H. Qed.

Lemma keeps_modify_world f : (∀ w, R w (f w)) → keeps R (modify_world f).
Proof. intros Hf w. apply Hf. Qed.

Lemma keeps_bind {A B} (m : Py A) (k : A → Py B) :
  keeps R m → (∀ a, keeps R (k a)) → keeps R (bind m k).
Proof using HR.
  intros Hm Hk w. unfold bind. specialize (Hm w).
  destruct (m w) as [[a|e] w1]; cbn [snd] in *; [|done].
  etrans; [exact Hm|]. apply Hk.
Qed.

Lemma keeps_int t : keeps R (int t).
Proof using HR. unfold int. destruct (py_int t); [apply keeps_ret|apply keeps_raise]. Qed.

Lemma keeps_getitem d key : keeps R (getitem d key).
Proof using HR. unfold getitem. destruct (d !! key); [apply keeps_ret|apply keeps_raise]. Qed.

End Keeps.

Ltac kbind tac :=
  apply keeps_bind; [first [assumption | apply _] | tac | ].

(** The steps of the program, for the two relations. *)
Lemma grows_input prompt : keeps grows (input prompt).
Proof.
  intros [its d wr inp out rnd dr cl]. unfold input.
  rewrite bind_run, modify_world_run. world_norm. cbv beta iota.
  rewrite bind_run, get_world_run. cbv beta iota. cbn [stdin].
  destruct inp as [|l rest]; cbn [snd raise];
    unfold grows; cbn [items disk disk_writable stdout stdin];
    repeat split; try done; try apply disk_grows_refl;
    try (by apply prefix_app_r); try (by apply suffix_cons_r).
Qed.

Lemma grows_print s : keeps grows (print s).
Proof.
  intros [its d wr inp out rnd dr cl]. rewrite print_run.
  unfold grows; cbn [snd items disk disk_writable stdout stdin].
  repeat split; try done; try apply disk_grows_refl. by apply prefix_app_r.
Qed.

Lemma grows_choose_item K T S : keeps grows (choose_item K T S).
Proof.
  intros [its d wr inp out rnd dr cl]. rewrite choose_item_mk.
  unfold grows; cbn [snd items disk disk_writable stdout stdin].
  repeat split; try done. apply disk_grows_refl.
Qed.

Lemma same_input prompt : keeps store_same (input prompt).
Proof.
  intros [its d wr inp out rnd dr cl]. unfold input.
  rewrite bind_run, modify_world_run. world_norm. cbv beta iota.
  rewrite bind_run, get_world_run. cbv beta iota. cbn [stdin].
  by destruct inp.
Qed.

Lemma same_print s : keeps store_same (print s).
Proof. by intros [its d wr inp out rnd dr cl]. Qed.

Lemma same_choose_item K T S : keeps store_same (choose_item K T S).
Proof. intros [its d wr inp out rnd dr cl]. by rewrite choose_item_mk. Qed.

Lemma keeps_find_action (R : World → World → Prop) :
  PreOrder R →
  (∀ prompt, keeps R (input prompt)) →
  (∀ s, keeps R (print s)) →
  (∀ K T S, keeps R (choose_item K T S)) →
  keeps R find_action.
Proof.
  intros HR Hinput Hprint Hchoose. unfold find_action, report.
  kbind ltac:(apply Hinput). intros t.
  kbind ltac:(by apply keeps_int). intros T.
  kbind ltac:(apply Hinput). intros s.
  kbind ltac:(apply Hinput). intros v.
  do 4 (kbind ltac:(apply Hchoose); intros ?).
  destruct (_ || _); repeat (kbind ltac:(apply Hprint); intros _); apply Hprint.
Qed.

Lemma grows_add_item : keeps grows add_item.
Proof.
  unfold add_item.
  do 6 (kbind ltac:(apply grows_input); intros ?).
  kbind idtac; [|intros _].
  { apply keeps_modify_world. intros [its d wr inp out rnd dr cl].
    unfold grows; world_norm. repeat split; try done.
    - by apply prefix_app_r.
    - apply disk_grows_refl. }
  apply keeps_bind_get. intros [its d wr inp out rnd dr cl].
  cbn [disk_writable disk]. destruct wr.
  - rewrite bind_run, modify_world_run. world_norm. cbv beta iota.
    rewrite print_run. unfold grows; world_norm. cbn [snd].
    repeat split; try done.
    + destruct d as [text|]; [|done]. by eexists.
    + by apply prefix_app_r.
  - rewrite bind_run. cbn [raise snd]. reflexivity.
Qed.

Global Instance io_same_preorder : PreOrder io_same.
Proof.
  split.
  - by intros w.
  - intros w1 w2 w3 (? & ? & ? & ?) (? & ? & ? & ?).
    unfold io_same. by repeat split; congruence.
Qed.

Lemma io_same_load_rows fieldnames rows : keeps io_same (load_rows fieldnames rows).
Proof.
  induction rows as [|row rows IH]; cbn [load_rows]; [apply keeps_ret; apply _|].
  destruct row as [|x row]; [done|].
  do 6 (kbind ltac:(apply keeps_getitem; apply _); intros ?).
  kbind idtac; [|intros _; first [apply keeps_ret; apply _ | done]].
  apply keeps_modify_world. by intros [its d wr inp out rnd dr cl].
Qed.

Lemma io_same_startup : keeps io_same (ItemManager__init__ ;; load_items).
Proof.
  unfold ItemManager__init__, load_items.
  kbind idtac; [|intros _].
  { apply keeps_modify_world. by intros [its d wr inp out rnd dr cl]. }
  apply keeps_bind_get. intros w. destruct (disk w); [|done].
  destruct (csv_reader s) as [[|fieldnames rows] [e|]]; try done.
  - assert (keeps io_same (load_rows fieldnames rows ;; raise_if (Some e))) as H; [|apply H].
    kbind ltac:(apply io_same_load_rows). intros _; first [apply keeps_ret; apply _ | apply keeps_raise; apply _ | done].
  - assert (keeps io_same (load_rows fieldnames rows ;; raise_if None)) as H; [|apply H].
    kbind ltac:(apply io_same_load_rows). intros _; first [apply keeps_ret; apply _ | apply keeps_raise; apply _ | done].
Qed.

(** X11. Creating the manager and loading the file neither reads
    standard input, nor prints, nor changes the file, whether loading
    succeeds or raises. *)
Theorem startup_only_reads w :
  io_same w ((ItemManager__init__ ;; load_items) w).2.
Proof. apply io_same_startup. Qed.

(** X12. The find branch leaves the catalog, the file and its permission
    as they are in every case: when it prints an outfit, when the
    temperature is not an integer, and when the input ends early. *)
Theorem find_action_read_only w :
  store_same w (find_action w).2.
Proof.
  apply keeps_find_action.
  - apply _.
  - apply same_input.
  - apply same_print.
  - apply same_choose_item.
Qed.

Lemma grows_find_continue : keeps grows (find_action ;; ret Continue).
Proof.
  kbind idtac; [|intros _; first [apply keeps_ret; apply _ | done]].
  apply keeps_find_action;
    [apply _|apply grows_input|apply grows_print|apply grows_choose_item].
Qed.

Lemma grows_add_continue : keeps grows (add_item ;; ret Continue).
Proof. kbind ltac:(apply grows_add_item). intros _; first [apply keeps_ret; apply _ | apply keeps_raise; apply _ | done]. Qed.

Lemma grows_invalid_continue :
  keeps grows (print "Invalid action. Please choose again." ;; ret Continue).
Proof. kbind ltac:(apply grows_print). intros _; first [apply keeps_ret; apply _ | apply keeps_raise; apply _ | done]. Qed.

Lemma grows_loop_body : keeps grows loop_body.
Proof.
  unfold loop_body. kbind ltac:(apply grows_input). intros a.
  repeat case_bool_decide.
  - apply grows_find_continue.
  - apply grows_add_continue.
  - apply keeps_ret; apply _.
  - apply grows_invalid_continue.
Qed.

Lemma grows_main_loop fuel :
  ∀ w r w', main_loop fuel w = Some (r, w') → grows w w'.
Proof.
  induction fuel as [|fuel IH]; intros w r w' Hrun; [done|].
  cbn [main_loop] in Hrun. pose proof (grows_loop_body w) as Hstep.
  destruct (loop_body w) as [[[]|e] w1]; cbn [snd] in Hstep.
  - etrans; [exact Hstep|]. by eapply IH.
  - by injection Hrun as <- <-.
  - by injection Hrun as <- <-.
Qed.

(** X13. Over any run of the loop, however it ends, nothing is taken
    back: the catalog in memory and the output are extended at their end,
    the text of the file is extended at its end and never rewritten, the
    permission is as before, and the input left is an end piece of the
    input. *)
Theorem main_loop_grows fuel w r w' :
  main_loop fuel w = Some (r, w') → grows w w'.
Proof. apply grows_main_loop. Qed.

(** Every iteration that goes on has consumed a line. *)
Lemma loop_body_consumes w f w' :
  loop_body w = (Ok f, w') → (length (stdin w') < length (stdin w))%nat.
Proof.
  destruct w as [its d wr inp out rnd dr cl]. cbn [stdin].
  destruct inp as [|a rest].
  { unfold loop_body. by rewrite bind_run, input_eof. }
  rewrite loop_body_action. cbv zeta.
  set (w1 := mkWorld its d wr rest _ rnd dr cl).
  intros Hrun.
  assert (stdin w' `suffix_of` stdin w1) as Hsuf.
  { repeat case_bool_decide.
    - pose proof (grows_find_continue w1) as Hk. rewrite Hrun in Hk. apply Hk.
    - pose proof (grows_add_continue w1) as Hk. rewrite Hrun in Hk. apply Hk.
    - by injection Hrun as _ <-.
    - pose proof (grows_invalid_continue w1) as Hk. rewrite Hrun in Hk. apply Hk. }
  apply suffix_length in Hsuf. subst w1. cbn [stdin] in Hsuf. cbn [length]. lia.
Qed.

Lemma main_loop_terminates n :
  ∀ w, (length (stdin w) < n)%nat → ∃ r, main_loop n w = Some r.
Proof.
  induction n as [|n IH]; intros w Hn; [lia|].
  cbn [main_loop]. destruct (loop_body w) as [[[]|e] w1] eqn:Hstep; [|by eexists..].
  apply IH. apply loop_body_consumes in Hstep. lia.
Qed.

(** X14. The program always comes to an end: with more iterations allowed
    than there are lines on standard input, it ends by quit, or with the
    exception that stopped it (at the latest [EOFError] when the input is
    used up). *)
Theorem main_terminates w k :
  ∃ r, main (S (length (stdin w)) + k) w = Some r.
Proof.
  unfold main. pose proof (io_same_startup w) as (Hin & _).
  destruct ((ItemManager__init__ ;; load_items) w) as [[[]|e] w1]; [|by eexists].
  cbn [snd] in Hin. apply main_loop_terminates. rewrite Hin. lia.
Qed.

(** ** A session of additions *)

Lemma join_fields_entry_row e : join_fields (entry_row e) ≠ "".
Proof.
  unfold entry_row.
  change (join_fields [entry_category e; entry_name e; entry_color e;
                       entry_temperature e; entry_style e; entry_weather e])
    with (join_append (entry_category e) +:+
          String COMMA (join_fields [entry_name e; entry_color e;
                                     entry_temperature e; entry_style e;
                                     entry_weather e])).
  by destruct (join_append (entry_category e)).
Qed.

Lemma read_rows_text entries :
  Forall entry_ok entries →
  read_text parse_reset false (rows_text entries) = (map entry_row entries, None).
Proof.
  induction 1 as [|e entries He _ IH]; [done|].
  cbn [rows_text map].
  rewrite read_writerow; [|apply join_fields_entry_row|exact He].
  by rewrite IH.
Qed.

Lemma csv_reader_session entries :
  Forall entry_ok entries →
  csv_reader (header_line +:+ rows_text entries)
  = (HEADER :: map entry_row entries, None).
Proof.
  intros Hok. unfold csv_reader. rewrite reader_from_splitlines.
  change header_line with (writerow HEADER).
  rewrite read_writerow.
  - by rewrite read_rows_text.
  - done.
  - apply (bool_decide_unpack _). vm_compute. exact I.
Qed.

Lemma reload_session entries :
  Forall entry_ok entries →
  reload (Some (header_line +:+ rows_text entries)) = (Ok tt, map entry_item entries).
Proof.
  intros Hok. rewrite (reload_HEADER _ _ (csv_reader_session entries Hok)).
  f_equal. clear Hok. induction entries as [|e entries IH]; [done|].
  cbn [map]. rewrite filter_cons_True by done. cbn [map]. by rewrite IH.
Qed.

Lemma main_loop_session entries :
  lower "add" = "add" → lower "quit" = "quit" →
  ∀ its text out rnd dr cl,
    ∃ out',
      main_loop (S (length entries))
        (mkWorld its (Some text) true
           (concat (map entry_lines entries) ++ ["quit"]) out rnd dr cl)
      = Some (Ok tt,
              mkWorld (its ++ map entry_item entries)
                (Some (text +:+ rows_text entries)) true [] out' rnd dr cl).
Proof.
  intros Hadd Hquit.
  induction entries as [|e entries IH]; intros its text out rnd dr cl.
  { eexists. cbn [length map concat app rows_text main_loop].
    rewrite loop_body_action. cbv zeta. rewrite Hquit.
    rewrite (bool_decide_eq_false_2 ("quit" = "find")) by done.
    rewrite (bool_decide_eq_false_2 ("quit" = "add")) by done.
    rewrite (bool_decide_eq_true_2 ("quit" = "quit")) by done.
    by rewrite app_nil_r, app_nil_r_s. }
  cbn [length map concat rows_text]. unfold entry_lines at 1.
  cbn [app]. cbn [main_loop]. rewrite loop_body_action. cbv zeta.
  rewrite Hadd.
  rewrite (bool_decide_eq_false_2 ("add" = "find")) by done.
  rewrite (bool_decide_eq_true_2 ("add" = "add")) by done.
  rewrite bind_run, add_item_run. cbv beta match zeta.
  change (default "" (Some text)) with text.
  unfold ret at 1. cbv beta match.
  assert (its ++ entry_item e :: map entry_item entries
          = (its ++ [mkItem (Some (entry_category e)) (Some (entry_name e))
                       (Some (entry_color e)) (Some (entry_temperature e))
                       (Some (entry_style e)) (Some (entry_weather e))])
            ++ map entry_item entries) as ->.
  { by rewrite <- (assoc_L (++)). }
  assert (text +:+ writerow (entry_row e) +:+ rows_text entries
          = (text +:+ writerow [entry_category e; entry_name e; entry_color e;
                                entry_temperature e; entry_style e;
                                entry_weather e])
            +:+ rows_text entries) as ->.
  { by rewrite app_assoc_s. }
  apply IH.
Qed.

(** X15. A session on a file that holds the header line, in which the
    user adds any number of items and then quits, ends normally; the
    catalog in memory holds the added items in the order of entry, the
    file holds the header line followed by one record per item, and a new
    process that loads this file obtains the same catalog (for fields
    within the field size limit of [csv], whatever commas, quotes and
    line breaks they contain). Of [str.lower] only the lower-casing of
    the two keywords is used. *)
Theorem add_session_persists entries rnd :
  lower "add" = "add" → lower "quit" = "quit" →
  Forall entry_ok entries →
  ∃ w',
    main (S (length entries))
      (fresh_process (Some header_line) true
         (concat (map entry_lines entries) ++ ["quit"]) rnd)
    = Some (Ok tt, w')
    ∧ items w' = map entry_item entries
    ∧ disk w' = Some (header_line +:+ rows_text entries)
    ∧ reload (disk w') = (Ok tt, items w').
Proof.
  intros Hadd Hquit Hok.
  unfold main, fresh_process, ItemManager__init__, load_items.
  rewrite bind_run, modify_world_run. world_norm. cbv beta iota.
  rewrite bind_run, get_world_run. cbv beta iota. cbn [disk].
  assert (csv_reader header_line = ([HEADER], None)) as -> by (vm_compute; reflexivity).
  cbn [load_rows]. rewrite bind_run. cbn [ret raise_if]. cbv beta iota.
  destruct (main_loop_session entries Hadd Hquit [] header_line [] rnd 0%nat [])
    as [out' Hrun].
  rewrite Hrun. eexists. split; [done|].
  cbn [items disk app]. split; [done|]. split; [done|].
  by apply reload_session.
Qed.

End Program.

(** * Runs of the program on concrete inputs

    The program with [lower_latin1] for [str.lower] and [int_latin1] for
    [int], on inputs whose characters these two cover. *)

Lemma lower_latin1_not_Casual u : lower_latin1 u ≠ "Casual".
Proof.
  destruct u as [|a u]; [discriminate|].
  cbn [lower_latin1]. intros H. injection H as H _.
  destruct a as [[] [] [] [] [] [] [] []]; vm_compute in H; discriminate.
Qed.

Lemma uppercase_style_never_found_witness :
  let w := fresh_process (Some "") true
             ["shirt"; "Tee"; "White"; "hot"; "sunny"; "Casual"] (λ _, 0%nat) in
  let item := mkItem (Some "shirt") (Some "Tee") (Some "White") (Some "hot")
                (Some "Casual") (Some "sunny") in
  let w' := set_items [item]
              (fresh_process None true ["35"; "Casual"; "sunny"] (λ _, 0%nat)) in
  items (add_item w).2 = [item]
  ∧ (choose_item CATEGORY_SHIRT 35 "Casual" w').1 = Ok (Some item)
  ∧ (choose_item CATEGORY_SHIRT 35 "casual" w').1 = Ok None
  ∧ (find_action lower_latin1 int_latin1 w').1 = Ok tt
  ∧ calls (find_action lower_latin1 int_latin1 w').2 =
      [(CATEGORY_JACKET, 35, "casual"); (CATEGORY_SHIRT, 35, "casual");
       (CATEGORY_PANTS, 35, "casual"); (CATEGORY_SHOES, 35, "casual")]
  ∧ stdout (find_action lower_latin1 int_latin1 w').2 =
      ["What is the temperature today: ";
       "What is the style today (casual/formal): ";
       "Is it rainy or sunny outside? (rainy/sunny): ";
       line "Today's Outfit:";
       line (report_line "Shirt" "shirt" None);
       line (report_line "Pants" "pants" None);
       line (report_line "Shoes" "shoes" None)].
Proof.
  intros w item w'.
  destruct (uppercase_style_never_found lower_latin1 int_latin1
              w "shirt" "Tee" "White" "hot" "sunny" "Casual" []
              eq_refl lower_latin1_not_Casual) as (Hadd & Hchoose & Hfind).
  destruct (Hchoose w' CATEGORY_SHIRT 35 "Casual") as [Hupper _].
  destruct (Hchoose w' CATEGORY_SHIRT 35 "casual") as [Hlower _].
  destruct (Hfind w' "35" "Casual" "sunny" [] 35 eq_refl eq_refl)
    as (Hok & Hcalls & Hout & _).
  split; [exact Hadd|]. split; [exact Hupper|]. split; [exact Hlower|].
  split; [exact Hok|]. split; [exact Hcalls|]. exact Hout.
Defined.

Lemma find_action_jacket_witness :
  let w := set_items [parka; tee]
             (fresh_process None true ["25"; "Casual"; "Sunny"] (λ _, 0%nat)) in
  (find_action lower_latin1 int_latin1 w).1 = Ok tt
  ∧ calls (find_action lower_latin1 int_latin1 w).2 =
      [(CATEGORY_JACKET, 25, "casual"); (CATEGORY_SHIRT, 25, "casual");
       (CATEGORY_PANTS, 25, "casual"); (CATEGORY_SHOES, 25, "casual")]
  ∧ (∃ jacket shirt pants shoes : option Item,
       stdout (find_action lower_latin1 int_latin1 w).2 =
         ["What is the temperature today: ";
          "What is the style today (casual/formal): ";
          "Is it rainy or sunny outside? (rainy/sunny): ";
          line "Today's Outfit:";
          line (report_line "Shirt" "shirt" shirt);
          line (report_line "Pants" "pants" pants);
          line (report_line "Shoes" "shoes" shoes)])
  ∧ jacket_gate "sunny" 25 = false
  ∧ jacket_gate "rainy" 25 = true.
Proof.
  intros w.
  apply (find_action_jacket lower_latin1 int_latin1 w "25" "Casual" "Sunny" [] 25);
    reflexivity.
Defined.

(** The jacket is requested at 25 degrees in sunny weather: the statement
    that it is requested only when rainy or cold fails there. *)
Lemma jacket_called_when_sunny_and_hot :
  ¬ jacket_called_only_when_gated lower_latin1 int_latin1
      (set_items [parka; tee]
         (fresh_process None true ["25"; "casual"; "sunny"] (λ _, 0%nat))).
Proof.
  intros H.
  specialize (H "25" "casual" "sunny" [] 25 eq_refl eq_refl).
  assert (jacket_gate (lower_latin1 "sunny") 25 = true) as Hgate.
  { apply H. vm_compute. left. }
  vm_compute in Hgate. discriminate.
Qed.

Lemma bad_temperature_raises_witness :
  main_loop lower_latin1 int_latin1 3
    (fresh_process None true ["Find"; "abc"; "quit"] (λ _, 0%nat)) =
  Some (Raise ValueError,
        mkWorld [] None true ["quit"]
          ["Choose an action (find/add/quit): "; "What is the temperature today: "]
          (λ _, 0%nat) 0 []).
Proof.
  apply (bad_temperature_raises lower_latin1 int_latin1
           (fresh_process None true ["Find"; "abc"; "quit"] (λ _, 0%nat))
           "Find" "abc" ["quit"] 2); reflexivity.
Defined.

(** With "abc" for the temperature the iteration does not end normally. *)
Lemma bad_temperature_not_survived :
  ¬ bad_temperature_survived lower_latin1 int_latin1
      (fresh_process None true ["find"; "abc"; "quit"] (λ _, 0%nat)).
Proof.
  intros H.
  destruct (H "find" "abc" ["quit"] eq_refl eq_refl eq_refl) as [w' Hw'].
  vm_compute in Hw'. discriminate.
Qed.

Lemma main_missing_file_witness :
  main lower_latin1 int_latin1 5
    (fresh_process None true ["find"; "20"] (λ _, 0%nat))
  = Some (Raise FileNotFoundError,
          fresh_process None true ["find"; "20"] (λ _, 0%nat)).
Proof.
  apply (main_missing_file lower_latin1 int_latin1
           (fresh_process None true ["find"; "20"] (λ _, 0%nat)) 5).
  reflexivity.
Defined.

Lemma invalid_action_continues_witness :
  loop_body lower_latin1 int_latin1
    (fresh_process None true ["Search"; "quit"] (λ _, 0%nat)) =
  (Ok Continue,
   mkWorld [] None true ["quit"]
     ["Choose an action (find/add/quit): ";
      line "Invalid action. Please choose again."] (λ _, 0%nat) 0 []).
Proof.
  apply (invalid_action_continues lower_latin1 int_latin1
           (fresh_process None true ["Search"; "quit"] (λ _, 0%nat))
           "Search" ["quit"]); vm_compute; done.
Defined.

Lemma quit_ends_loop_witness :
  main_loop lower_latin1 int_latin1 1
    (fresh_process None true ["QUIT"; "find"] (λ _, 0%nat)) =
  Some (Ok tt,
        mkWorld [] None true ["find"] ["Choose an action (find/add/quit): "]
          (λ _, 0%nat) 0 []).
Proof.
  apply (quit_ends_loop lower_latin1 int_latin1
           (fresh_process None true ["QUIT"; "find"] (λ _, 0%nat))
           "QUIT" ["find"] 0); reflexivity.
Defined.

Lemma end_of_input_raises_witness :
  main_loop lower_latin1 int_latin1 1 (fresh_process None true [] (λ _, 0%nat)) =
  Some (Raise EOFError,
        mkWorld [] None true [] ["Choose an action (find/add/quit): "]
          (λ _, 0%nat) 0 []).
Proof.
  apply (end_of_input_raises lower_latin1 int_latin1
           (fresh_process None true [] (λ _, 0%nat)) 0).
  reflexivity.
Defined.

Lemma main_loop_grows_witness :
  let w := set_items [parka]
             (fresh_process (Some header_line) true
                ["add"; "shirt"; "Tee"; "White"; "hot"; "sunny"; "casual";
                 "find"; "warm"; "quit"] (λ _, 0%nat)) in
  ∃ r w', main_loop lower_latin1 int_latin1 3 w = Some (r, w') ∧ grows w w'.
Proof.
  intros w. eexists _, _.
  assert (∀ r w', main_loop lower_latin1 int_latin1 3 w = Some (r, w') →
                  main_loop lower_latin1 int_latin1 3 w = Some (r, w')
                  ∧ grows w w') as H.
  { intros r w' Hrun. split; [done|].
    by apply (main_loop_grows lower_latin1 int_latin1 3 w r w'). }
  apply H. vm_compute. reflexivity.
Defined.

Lemma add_session_persists_witness :
  let entries :=
    [mkEntry "jacket" "Parka" "Blue, dark" "cold" "rainy" "casual";
     mkEntry "shirt" "Tee" "White" "hot" "sunny" "casual"] in
  ∃ w',
    main lower_latin1 int_latin1 3
      (fresh_process (Some header_line) true
         (concat (map entry_lines entries) ++ ["quit"]) (λ _, 0%nat))
    = Some (Ok tt, w')
    ∧ items w' = map entry_item entries
    ∧ disk w' = Some (header_line +:+ rows_text entries)
    ∧ reload (disk w') = (Ok tt, items w').
Proof.
  intros entries.
  apply (add_session_persists lower_latin1 int_latin1 entries (λ _, 0%nat)).
  - reflexivity.
  - reflexivity.
  - apply (bool_decide_unpack _). vm_compute. exact I.
Defined.
